(** * svg_to_globe: the path-command interpreter of Tools/svg_to_globe.py

    A shallow embedding of [parse_path_commands], [svg_to_geographic],
    [point_to_coord] and [extract_path_segments], and the properties of
    the segment builder.

    Numbers.  A Python float is an IEEE double, the kernel's primitive
    [float]: [+], [-], [*], [/], [<] and [math.sqrt] are the primitive
    operations; [float(text)] and [round(x, 4)] return the double nearest to
    the decimal they denote ([Module Binary64]); [x ** 2] is taken as
    [x * x].  The coordinate transform is given a second time in exact
    arithmetic, on rationals ([Module Exact]), for what holds of the
    formulas before rounding to doubles.

    Strings.  A Python [str] is a [string] of code points below 256.

    Errors.  Indexing a list may raise [IndexError]; the builder runs in an
    error monad and is proved never to raise.

    Callers.  [process_svg_to_paths], [parse_svg_file],
    [create_globe_document] and the argument handling of [main] are given
    with what they read from outside as arguments: the files found at a
    path, each an element tree as [ET.parse] returns it, and the text of the
    current time.  Printed lines are returned with the result. *)

From Stdlib Require Import ZArith QArith Qround Lqa Lia List String Ascii Bool.
From Stdlib Require Import Floats Uint63.
From Stdlib Require Import DecimalString.
Import ListNotations.

(** ** Numbers *)

(** Nearest integer, ties to the even one. *)
Definition round_half_even (x : Q) : Z :=
  let f := Qfloor x in
  match Qcompare (x - inject_Z f) (1 # 2) with
  | Lt => f
  | Gt => (f + 1)%Z
  | Eq => if Z.even f then f else (f + 1)%Z
  end.

Module Binary64.

#[local] Open Scope Q_scope.

Definition pow2 (e : Z) : Q :=
  if (0 <=? e)%Z then inject_Z (2 ^ e) else 1 # Z.to_pos (2 ^ (- e)).

(** The exact value of a finite double, from its sign, mantissa and
    exponent. *)
Definition value (f : spec_float) : option Q :=
  match f with
  | S754_zero _ => Some 0
  | S754_finite s m e =>
      Some (if s then - (inject_Z (Z.pos m) * pow2 e)
            else inject_Z (Z.pos m) * pow2 e)
  | S754_infinity _ | S754_nan => None
  end.

Definition exact (f : float) : option Q := value (Prim2SF f).

(** The double nearest to a positive rational, ties to even: a mantissa of
    53 bits (fewer below 2^-1022) at the exponent [e], rounded to an
    integer. *)
Definition nearest_pos (q : Q) : float :=
  let l := (Z.log2 (Qnum q) - Z.log2 (Z.pos (Qden q)))%Z in
  let l := if Qlt_le_dec q (pow2 l) then (l - 1)%Z else l in
  let e := Z.max (-1074) (l - 52) in
  let m := round_half_even (q * pow2 (- e)) in
  if (971 <? e)%Z then infinity
  else SF2Prim (binary_normalize prec emax m e false).

(** The double nearest to a rational; [neg] is the sign of a zero result. *)
Definition nearest (neg : bool) (q : Q) : float :=
  match Qcompare q 0 with
  | Eq => if neg then neg_zero else zero
  | Gt => nearest_pos q
  | Lt => PrimFloat.opp (nearest_pos (- q))
  end.

(** The double of an integer; exact below 2^53 in absolute value. *)
Definition of_int (n : Z) : float :=
  if (n <? 0)%Z then PrimFloat.opp (of_uint63 (Uint63.of_Z (- n)))
  else of_uint63 (Uint63.of_Z n).

(** The double nearest to n / d.  When both integers are doubles their IEEE
    quotient is that double; [neg] is the sign of a zero result. *)
Definition quotient (neg : bool) (n : Z) (d : positive) : float :=
  if (n =? 0)%Z then (if neg then neg_zero else zero)
  else if (Z.abs n <? 2 ^ 53)%Z && (Z.pos d <? 2 ^ 53)%Z
       then PrimFloat.div (of_int n) (of_int (Z.pos d))
       else nearest neg (n # d).

(** The double that [float] reads from the decimal text of m / 10^k. *)
Definition decimal (m : Z) (k : N) : float :=
  quotient (m <? 0)%Z m (Z.to_pos (10 ^ Z.of_N k)).

(** [round(x, ndigits)] for [ndigits >= 0]: the exact value of [x] is
    rounded to [ndigits] decimals, ties to even, and the double nearest to
    that decimal is returned; infinities and NaN are returned as they
    are. *)
Definition py_round (x : float) (ndigits : N) : float :=
  match exact x with
  | Some q =>
      let scale := Z.to_pos (10 ^ Z.of_N ndigits) in
      quotient (get_sign x)
               (round_half_even (q * inject_Z (Z.pos scale))) scale
  | None => x
  end.

(** [max(a, b)] returns [a] unless [b > a]; [min(a, b)] returns [a] unless
    [b < a]. *)
Definition py_max (a b : float) : float := if PrimFloat.ltb a b then b else a.
Definition py_min (a b : float) : float := if PrimFloat.ltb b a then b else a.

End Binary64.
Import Binary64.

(** ** Coordinate system constants *)

Definition SVG_WIDTH : float := 4170.
Definition SVG_HEIGHT : float := 1668.
Definition LON_RANGE : float := 180.
Definition LAT_RANGE : float := 72.
Definition INNER_SHIFT : float := -69.5.
Definition OUTER_SHIFT : float := 2015.5.

(** ** Coordinate transform *)

(** A coordinate [[lat, lon]]: index 0 is [fst], index 1 is [snd]. *)
Definition Coord : Type := (float * float)%type.

(** The longitude and latitude before clamping and rounding. *)
Definition raw_lon (x : float) : float :=
  ((x - SVG_WIDTH / 2) * (LON_RANGE / (SVG_WIDTH / 2)))%float.
Definition raw_lat (y : float) : float :=
  (- (y - SVG_HEIGHT / 2) * (LAT_RANGE / (SVG_HEIGHT / 2)))%float.

Definition svg_to_geographic (x y : float) : Coord :=
  let lon := raw_lon x in
  let lat := raw_lat y in
  let lat := py_max (- LAT_RANGE)%float (py_min LAT_RANGE lat) in
  (py_round lat 4, py_round lon 4).

Definition point_to_coord (x y shift : float) : Coord :=
  let '(lat, lon) := svg_to_geographic (x + shift)%float y in
  (lat, lon).

(** ** The coordinate transform in exact arithmetic *)

Module Exact.

#[local] Open Scope Q_scope.

(** The result is a reduced fraction, so equal values are equal terms. *)
Definition py_round (x : Q) (ndigits : N) : Q :=
  let scale := Z.to_pos (10 ^ Z.of_N ndigits) in
  Qred (round_half_even (x * inject_Z (Z.pos scale)) # scale).

Definition py_max (a b : Q) : Q := if Qlt_le_dec a b then b else a.
Definition py_min (a b : Q) : Q := if Qlt_le_dec b a then b else a.

Definition SVG_WIDTH : Q := 4170.
Definition SVG_HEIGHT : Q := 1668.
Definition LON_RANGE : Q := 180.
Definition LAT_RANGE : Q := 72.
Definition INNER_SHIFT : Q := - (139 # 2).
Definition OUTER_SHIFT : Q := 4031 # 2.

Definition raw_lon (x : Q) : Q :=
  (x - SVG_WIDTH / 2) * (LON_RANGE / (SVG_WIDTH / 2)).
Definition raw_lat (y : Q) : Q :=
  - (y - SVG_HEIGHT / 2) * (LAT_RANGE / (SVG_HEIGHT / 2)).

Definition svg_to_geographic (x y : Q) : Q * Q :=
  let lon := raw_lon x in
  let lat := raw_lat y in
  let lat := py_max (- LAT_RANGE) (py_min LAT_RANGE lat) in
  (py_round lat 4, py_round lon 4).

Definition point_to_coord (x y shift : Q) : Q * Q :=
  let '(lat, lon) := svg_to_geographic (x + shift) y in
  (lat, lon).

End Exact.

(** ** Exceptions *)

Inductive exn : Type := IndexError | ValueError.

Inductive result (A : Type) : Type :=
| Ok (a : A)
| Raise (e : exn).
Arguments Ok {A} a.
Arguments Raise {A} e.

Definition bind {A B : Type} (m : result A) (k : A -> result B) : result B :=
  match m with
  | Ok a => k a
  | Raise e => Raise e
  end.

Notation "x <- m ;; k" := (bind m (fun x => k))
  (at level 61, m at next level, right associativity).
Notation "' pat <- m ;; k" := (bind m (fun x => match x with pat => k end))
  (at level 61, pat pattern, m at next level, right associativity).

(** A [for] loop over a list of indices, threading the loop's variables. *)
Fixpoint for_each {S : Type} (idx : list Z) (body : Z -> S -> result S)
  (s : S) : result S :=
  match idx with
  | [] => Ok s
  | i :: rest => s' <- body i s ;; for_each rest body s'
  end.

(** [range(start, stop, step)] for a positive [step]. *)
Definition py_range (start stop step : Z) : list Z :=
  map (fun k => (start + step * Z.of_nat k)%Z)
      (seq 0 (Z.to_nat ((stop - start + step - 1) / step))).

(** [l[i]]: a negative index counts from the end; out of range raises. *)
Definition getitem {A : Type} (l : list A) (i : Z) : result A :=
  let n := Z.of_nat (List.length l) in
  let j := if (i <? 0)%Z then (i + n)%Z else i in
  if (j <? 0)%Z then Raise IndexError
  else match nth_error l (Z.to_nat j) with
       | Some a => Ok a
       | None => Raise IndexError
       end.

Definition len {A : Type} (l : list A) : Z := Z.of_nat (List.length l).

(** ** Command Parser *)

Module Parser.

#[local] Open Scope string_scope.

Definition COMMAND_LETTERS : string := "MCmcLlHhVvZzSsQqTtAa".

Fixpoint mem_char (c : ascii) (s : string) : bool :=
  match s with
  | EmptyString => false
  | String a rest => Ascii.eqb c a || mem_char c rest
  end.

Definition is_command (c : ascii) : bool := mem_char c COMMAND_LETTERS.

Definition is_digit (c : ascii) : bool :=
  let n := nat_of_ascii c in (48 <=? n)%nat && (n <=? 57)%nat.

(** The characters [str.strip()] removes, among the code points below 256. *)
Definition is_space (c : ascii) : bool :=
  let n := nat_of_ascii c in
  ((9 <=? n)%nat && (n <=? 13)%nat) || ((28 <=? n)%nat && (n <=? 32)%nat)
  || (n =? 133)%nat || (n =? 160)%nat.

Fixpoint lstrip (s : string) : string :=
  match s with
  | EmptyString => EmptyString
  | String c rest => if is_space c then lstrip rest else s
  end.

Fixpoint rstrip (s : string) : string :=
  match s with
  | EmptyString => EmptyString
  | String c rest =>
      match rstrip rest with
      | EmptyString => if is_space c then EmptyString else String c EmptyString
      | r => String c r
      end
  end.

Definition strip (s : string) : string := rstrip (lstrip s).

(** [re.finditer] with the pattern of one command letter followed by the
    longest run of characters that are not command letters: the text before
    the first command letter, and then each command letter with its run. *)
Fixpoint finditer (d : string) : string * list (ascii * string) :=
  match d with
  | EmptyString => (EmptyString, [])
  | String c rest =>
      let '(run, matches) := finditer rest in
      if is_command c then (EmptyString, (c, run) :: matches)
      else (String c run, matches)
  end.

(** [re.findall] with the pattern [-?\d+\.?\d*], as the automaton of the
    leftmost greedy match: [InInt tok] has read an optional sign and at
    least one digit, [InFrac tok] also the point and further digits. *)
Inductive scan_state : Type :=
| Idle
| Minus
| InInt (tok : string)
| InFrac (tok : string).

Definition snoc (tok : string) (c : ascii) : string :=
  tok ++ String c EmptyString.

Definition scan_start (c : ascii) : scan_state :=
  if is_digit c then InInt (String c EmptyString)
  else if Ascii.eqb c "-" then Minus
  else Idle.

Definition scan_step (st : scan_state) (c : ascii)
  : scan_state * list string :=
  match st with
  | Idle => (scan_start c, [])
  | Minus =>
      if is_digit c then (InInt (String "-" (String c EmptyString)), [])
      else (scan_start c, [])
  | InInt tok =>
      if is_digit c then (InInt (snoc tok c), [])
      else if Ascii.eqb c "." then (InFrac (snoc tok c), [])
      else (scan_start c, [tok])
  | InFrac tok =>
      if is_digit c then (InFrac (snoc tok c), [])
      else (scan_start c, [tok])
  end.

Definition scan_end (st : scan_state) : list string :=
  match st with
  | InInt tok | InFrac tok => [tok]
  | Idle | Minus => []
  end.

Fixpoint scan (st : scan_state) (s : string) : list string :=
  match s with
  | EmptyString => scan_end st
  | String c rest =>
      let '(st', out) := scan_step st c in out ++ scan st' rest
  end.

Definition findall (s : string) : list string := scan Idle s.

(** [float(n)] on a literal [-?\d+\.?\d*]: the double nearest to its
    decimal value.  Any other text is [ValueError] here. *)
Inductive float_state : Type :=
| FStart
| FSign
| FInt (neg : bool) (m : Z)
| FFrac (neg : bool) (m : Z) (k : N)
| FBad.

Definition digit_value (c : ascii) : Z := (Z.of_nat (nat_of_ascii c) - 48)%Z.

Definition float_step (st : float_state) (c : ascii) : float_state :=
  match st with
  | FStart =>
      if is_digit c then FInt false (digit_value c)
      else if Ascii.eqb c "-" then FSign
      else FBad
  | FSign => if is_digit c then FInt true (digit_value c) else FBad
  | FInt neg m =>
      if is_digit c then FInt neg (10 * m + digit_value c)
      else if Ascii.eqb c "." then FFrac neg m 0
      else FBad
  | FFrac neg m k =>
      if is_digit c then FFrac neg (10 * m + digit_value c) (k + 1) else FBad
  | FBad => FBad
  end.

Fixpoint float_run (st : float_state) (s : string) : float_state :=
  match s with
  | EmptyString => st
  | String c rest => float_run (float_step st c) rest
  end.

Definition signed (neg : bool) (m : Z) : Z := if neg then (- m)%Z else m.

Definition py_float (s : string) : result float :=
  match float_run FStart s with
  | FInt neg m => Ok (quotient neg (signed neg m) 1)
  | FFrac neg m k =>
      Ok (quotient neg (signed neg m) (Z.to_pos (10 ^ Z.of_N k)))
  | FStart | FSign | FBad => Raise ValueError
  end.

Fixpoint map_result {A B : Type} (f : A -> result B) (l : list A)
  : result (list B) :=
  match l with
  | [] => Ok []
  | a :: rest => b <- f a ;; bs <- map_result f rest ;; Ok (b :: bs)
  end.

Definition Command : Type := (ascii * list float)%type.

Definition parse_path_commands (d : string) : result (list Command) :=
  map_result
    (fun m : ascii * string =>
       let '(cmd, group2) := m in
       let coords_str := strip group2 in
       coords <- (if negb (String.eqb coords_str EmptyString)
                  then map_result py_float (findall coords_str)
                  else Ok []) ;;
       Ok (cmd, coords))
    (snd (finditer d)).

End Parser.
Import Parser.

(** ** Segment Builder *)

Open Scope float_scope.

(** A cubic quadruple [[p0, p1, p2, p3]]. *)
Record Cubic : Type := mkCubic {
  c_p0 : Coord;
  c_p1 : Coord;
  c_p2 : Coord;
  c_p3 : Coord
}.

(** class PathSegment *)
Record PathSegment : Type := mkPathSegment {
  cubic_segments : list Cubic;
  is_closed : bool;
  start_point : option Coord;
  current_point : option Coord
}.

Definition new_PathSegment : PathSegment := mkPathSegment [] false None None.

Definition set_points (seg : PathSegment) (p : Coord) : PathSegment :=
  mkPathSegment (cubic_segments seg) (is_closed seg) (Some p) (Some p).

Definition append_cubic (seg : PathSegment) (c : Cubic) : PathSegment :=
  mkPathSegment (cubic_segments seg ++ [c]) (is_closed seg)
                (start_point seg) (current_point seg).

Definition set_current_point (seg : PathSegment) (p : Coord) : PathSegment :=
  mkPathSegment (cubic_segments seg) (is_closed seg) (start_point seg) (Some p).

Definition set_closed (seg : PathSegment) : PathSegment :=
  mkPathSegment (cubic_segments seg) true (start_point seg) (current_point seg).

(** The straight segment from [p0] to [p3] as a cubic: the control points
    are taken at 1/3 and 2/3 between the two given (transformed) points. *)
Definition line_cubic (p0 p3 : Coord) : Cubic :=
  let p1 := (fst p0 + (fst p3 - fst p0) / 3, snd p0 + (snd p3 - snd p0) / 3) in
  let p2 := (fst p0 + (fst p3 - fst p0) * 2 / 3,
             snd p0 + (snd p3 - snd p0) * 2 / 3) in
  mkCubic p0 p1 p2 p3.

(** [x ** 2] *)
Definition sq (x : float) : float := x * x.

(** [(start[0] - end[0])**2 + (start[1] - end[1])**2] *)
Definition dist_sq (a b : Coord) : float :=
  sq (fst a - fst b) + sq (snd a - snd b).

(** [math.sqrt(d) > eps] *)
Definition sqrt_gt (d eps : float) : bool :=
  PrimFloat.ltb eps (PrimFloat.sqrt d).

(** 0.01 *)
Definition CLOSE_DIST : float := decimal 1 2.

(** The variables of the loop of [extract_path_segments]. *)
Record Builder : Type := mkBuilder {
  segments : list PathSegment;
  current_segment : option PathSegment;
  current_pos : float * float
}.

Definition init_builder : Builder := mkBuilder [] None (0, 0).

(** [if current_segment and len(current_segment.cubic_segments) > 0:
       segments.append(current_segment)] *)
Definition flush (segs : list PathSegment) (cur : option PathSegment)
  : list PathSegment :=
  match cur with
  | Some seg => if (0 <? len (cubic_segments seg))%Z then segs ++ [seg] else segs
  | None => segs
  end.

(** [if current_segment is None: ...] at the head of C, c, L and l. *)
Definition open_segment (cur : option PathSegment) (pos : float * float) (shift : float)
  : PathSegment :=
  match cur with
  | None => set_points new_PathSegment (point_to_coord (fst pos) (snd pos) shift)
  | Some seg => seg
  end.

Section Step.

Variable shift : float.

Definition coord_of (pos : float * float) : Coord :=
  point_to_coord (fst pos) (snd pos) shift.

(** Loop bodies; the loop variables are [current_pos] and the segment.
    [body_line_abs] is the body of the L loop and of the loop over the extra
    pairs of M, where the source keeps the old cursor in [prev_pos]. *)
Definition body_line_abs (coords : list float) (i : Z) (s : (float * float) * PathSegment)
  : result ((float * float) * PathSegment) :=
  let '(pos, seg) := s in
  let p0 := coord_of pos in
  x <- getitem coords i ;;
  y <- getitem coords (i + 1) ;;
  let pos := (x, y) in
  let p3 := coord_of pos in
  Ok (pos, set_current_point (append_cubic seg (line_cubic p0 p3)) p3).

Definition body_line_rel (coords : list float) (i : Z) (s : (float * float) * PathSegment)
  : result ((float * float) * PathSegment) :=
  let '(pos, seg) := s in
  let p0 := coord_of pos in
  dx <- getitem coords i ;;
  dy <- getitem coords (i + 1) ;;
  let pos := (fst pos + dx, snd pos + dy) in
  let p3 := coord_of pos in
  Ok (pos, set_current_point (append_cubic seg (line_cubic p0 p3)) p3).

Definition body_curve_abs (coords : list float) (i : Z) (s : (float * float) * PathSegment)
  : result ((float * float) * PathSegment) :=
  let '(pos, seg) := s in
  let p0 := coord_of pos in
  x1 <- getitem coords i ;;
  y1 <- getitem coords (i + 1) ;;
  let p1 := point_to_coord x1 y1 shift in
  x2 <- getitem coords (i + 2) ;;
  y2 <- getitem coords (i + 3) ;;
  let p2 := point_to_coord x2 y2 shift in
  x3 <- getitem coords (i + 4) ;;
  y3 <- getitem coords (i + 5) ;;
  let p3 := point_to_coord x3 y3 shift in
  Ok ((x3, y3), set_current_point (append_cubic seg (mkCubic p0 p1 p2 p3)) p3).

Definition body_curve_rel (coords : list float) (i : Z) (s : (float * float) * PathSegment)
  : result ((float * float) * PathSegment) :=
  let '(pos, seg) := s in
  let p0 := coord_of pos in
  x1 <- getitem coords i ;;
  y1 <- getitem coords (i + 1) ;;
  let p1 := point_to_coord (fst pos + x1) (snd pos + y1) shift in
  x2 <- getitem coords (i + 2) ;;
  y2 <- getitem coords (i + 3) ;;
  let p2 := point_to_coord (fst pos + x2) (snd pos + y2) shift in
  x3 <- getitem coords (i + 4) ;;
  y3 <- getitem coords (i + 5) ;;
  let p3 := point_to_coord (fst pos + x3) (snd pos + y3) shift in
  Ok ((fst pos + x3, snd pos + y3),
      set_current_point (append_cubic seg (mkCubic p0 p1 p2 p3)) p3).

(** The common shape of C, c, L and l: open a segment if there is none, then
    loop over the groups of coordinates. *)
Definition draw (st : Builder) (idx : list Z)
  (body : Z -> (float * float) * PathSegment -> result ((float * float) * PathSegment))
  : result Builder :=
  let seg := open_segment (current_segment st) (current_pos st) shift in
  ' (pos, seg) <- for_each idx body (current_pos st, seg) ;;
  Ok (mkBuilder (segments st) (Some seg) pos).

Definition step_M (st : Builder) (coords : list float) : result Builder :=
  if (2 <=? len coords)%Z then
    let segs := flush (segments st) (current_segment st) in
    x <- getitem coords 0 ;;
    y <- getitem coords 1 ;;
    let pos := (x, y) in
    let seg := set_points new_PathSegment (coord_of pos) in
    ' (pos, seg) <- for_each (py_range 2 (len coords - 1) 2)
                             (body_line_abs coords) (pos, seg) ;;
    Ok (mkBuilder segs (Some seg) pos)
  else Ok st.

Definition step_m (st : Builder) (coords : list float) : result Builder :=
  if (2 <=? len coords)%Z then
    let segs := flush (segments st) (current_segment st) in
    dx <- getitem coords 0 ;;
    dy <- getitem coords 1 ;;
    let pos := (fst (current_pos st) + dx, snd (current_pos st) + dy) in
    let seg := set_points new_PathSegment (coord_of pos) in
    Ok (mkBuilder segs (Some seg) pos)
  else Ok st.

(** [current_segment.start_point] and [current_segment.current_point] are
    two-element lists when they are not [None], hence true as conditions. *)
Definition step_Z (st : Builder) : result Builder :=
  match current_segment st with
  | Some seg =>
      match start_point seg, current_point seg with
      | Some start, Some end_ =>
          let seg :=
            if sqrt_gt (dist_sq start end_) CLOSE_DIST
            then append_cubic seg (line_cubic end_ start)
            else seg in
          Ok (mkBuilder (segments st) (Some (set_closed seg)) (current_pos st))
      | _, _ => Ok st
      end
  | None => Ok st
  end.

Definition step (st : Builder) (c : Command) : result Builder :=
  let '(cmd, coords) := c in
  if Ascii.eqb cmd "M" then step_M st coords
  else if Ascii.eqb cmd "m" then step_m st coords
  else if Ascii.eqb cmd "C" then
    draw st (py_range 0 (len coords - 5) 6) (body_curve_abs coords)
  else if Ascii.eqb cmd "c" then
    draw st (py_range 0 (len coords - 5) 6) (body_curve_rel coords)
  else if Ascii.eqb cmd "L" then
    draw st (py_range 0 (len coords - 1) 2) (body_line_abs coords)
  else if Ascii.eqb cmd "l" then
    draw st (py_range 0 (len coords - 1) 2) (body_line_rel coords)
  else if Ascii.eqb cmd "Z" || Ascii.eqb cmd "z" then step_Z st
  else Ok st.

Fixpoint run (st : Builder) (commands : list Command) : result Builder :=
  match commands with
  | [] => Ok st
  | c :: rest => st' <- step st c ;; run st' rest
  end.

End Step.

(** The output dictionary of one path; its ["id"] key, a fresh random
    [uuid4] string, is not part of the model. *)
Module Color.
Record t : Type := mk { r : float; g : float; b : float; a : float }.
End Color.
Record Style : Type := mkStyle { strokeColor : Color.t; strokeWidth : float }.
Record PathDict : Type := mkPathDict {
  pathType : string;
  cubicSegments : list Cubic;
  isClosed : bool;
  style : Style
}.

Definition path_dict (seg : PathSegment) : PathDict :=
  mkPathDict "cubic" (cubic_segments seg) (is_closed seg)
    (mkStyle (Color.mk (decimal 9 1) (decimal 9 1) (decimal 9 1) 1) 1.5).

Definition to_output (segs : list PathSegment) : list PathDict :=
  map path_dict
      (filter (fun seg => (0 <? len (cubic_segments seg))%Z) segs).

(** The builder on an already parsed command list. *)
Definition build_segments (commands : list Command) (shift : float)
  : result (list PathDict) :=
  st <- run shift init_builder commands ;;
  Ok (to_output (flush (segments st) (current_segment st))).

Definition extract_path_segments (path_data : string) (shift : float)
  : result (list PathDict) :=
  commands <- parse_path_commands path_data ;;
  build_segments commands shift.

(** * Vocabulary of the statements *)

Definition show (res : result (list PathDict)) : list (nat * bool) :=
  match res with
  | Ok ps => map (fun p => (List.length (cubicSegments p), isClosed p)) ps
  | Raise _ => []
  end.

(** The raw x at which the longitude formula gives the integer [m]. *)
Definition x_of_lon (m : Z) (shift : Q) : Q :=
  (inject_Z m * (Exact.SVG_WIDTH / 2 / Exact.LON_RANGE)
   + Exact.SVG_WIDTH / 2 - shift)%Q.

(** A loop body over groups of [g] coordinates: whenever the group at [i]
    lies inside [coords] it appends one cubic that starts at the transformed
    cursor, and sets the segment's current point. *)
Definition appends_one (shift : float)
  (body : list float -> Z -> (float * float) * PathSegment -> result ((float * float) * PathSegment))
  (g : Z) : Prop :=
  forall coords i pos seg,
    (0 <= i)%Z -> (i + g <= len coords)%Z ->
    exists pos' c p,
      body coords i (pos, seg)
      = Ok (pos', set_current_point (append_cubic seg c) p)
      /\ c_p0 c = coord_of shift pos.

(** What a whole loop does to the segment: it appends [new] cubics, one per
    index, the first of them starting at the transformed cursor, and leaves
    the closed flag and the start point alone. *)
Record grows (shift : float) (pos : float * float) (seg seg' : PathSegment) (new : list Cubic)
  : Prop := mkGrows {
  grows_cubics : cubic_segments seg' = cubic_segments seg ++ new;
  grows_closed : is_closed seg' = is_closed seg;
  grows_start : start_point seg' = start_point seg;
  grows_current : current_point seg <> None -> current_point seg' <> None;
  grows_head : forall c, hd_error new = Some c -> c_p0 c = coord_of shift pos
}.

(** Every segment the builder holds has its start and current points set. *)
Definition wf_seg (seg : PathSegment) : Prop :=
  start_point seg <> None /\ current_point seg <> None.

Definition wf (st : Builder) : Prop :=
  forall seg, current_segment st = Some seg -> wf_seg seg.

(** The dispatch on the command letter, one case per branch of the loop. *)
Inductive opcode : Type :=
| OpM | Opm | OpC | Opc | OpL | Opl | OpZ | OpOther.

Definition classify (cmd : ascii) : opcode :=
  if Ascii.eqb cmd "M" then OpM
  else if Ascii.eqb cmd "m" then Opm
  else if Ascii.eqb cmd "C" then OpC
  else if Ascii.eqb cmd "c" then Opc
  else if Ascii.eqb cmd "L" then OpL
  else if Ascii.eqb cmd "l" then Opl
  else if Ascii.eqb cmd "Z" || Ascii.eqb cmd "z" then OpZ
  else OpOther.

(** The text gathered so far is a prefix of a literal that [float] reads. *)
Definition state_ok (st : scan_state) : Prop :=
  match st with
  | Idle | Minus => True
  | InInt tok => exists neg m, float_run FStart tok = FInt neg m
  | InFrac tok => exists neg m k, float_run FStart tok = FFrac neg m k
  end.

Definition literal (tok : string) : Prop := exists q, py_float tok = Ok q.

Definition is_closepath (cmd : ascii) : Prop := cmd = "Z"%char \/ cmd = "z"%char.

Definition UNHANDLED : list ascii :=
  ["S"; "s"; "Q"; "q"; "T"; "t"; "A"; "a"; "H"; "h"; "V"; "v"]%char.



Definition DRAW_LETTERS : list ascii := ["C"; "c"; "L"; "l"]%char.




(** The arguments of the C command from [pos] to (x3, y3) whose control
    points are the 1/3 and 2/3 interpolants of the raw endpoints. *)
Definition interpolated_curve (pos : float * float) (x3 y3 : float) : list float :=
  [ fst pos + (x3 - fst pos) / 3; snd pos + (y3 - snd pos) / 3;
    fst pos + (x3 - fst pos) * 2 / 3; snd pos + (y3 - snd pos) * 2 / 3;
    x3; y3 ].

(** The cubic a step appended last to the current segment. *)
Definition last_cubic (res : result Builder) : option Cubic :=
  match res with
  | Ok st =>
      match current_segment st with
      | Some seg => last (map Some (cubic_segments seg)) None
      | None => None
      end
  | Raise _ => None
  end.


Definition seg_after_line : PathSegment :=
  mkPathSegment [line_cubic (72, -180) (72, decimal (-1713669) 4)]
    false (Some (72, -180)) (Some (72, decimal (-1713669) 4)).

Definition st_after_line : Builder :=
  mkBuilder [] (Some seg_after_line) (100, 0).


(** 72 and -72 as doubles: the mantissa 72 * 2^46 at the exponent -46. *)
Definition M72 : positive := 5066549580791808%positive.
Definition SF72 : spec_float := S754_finite false M72 (-46).
Definition SFm72 : spec_float := S754_finite true M72 (-46).

(** The doubles [i / 10000] and [-i / 10000] lie between -72 and 72. *)
Definition in_range (i : PrimInt63.int) : bool :=
  let f := PrimFloat.div (of_uint63 i) 10000%float in
  let g := PrimFloat.div (PrimFloat.opp (of_uint63 i)) 10000%float in
  PrimFloat.leb (-72)%float f && PrimFloat.leb f 72%float
  && PrimFloat.leb (-72)%float g && PrimFloat.leb g 72%float.

(** [in_range] at every index from [base] up to [base + w - 1] that is at
    most 720000, where w = 2^h. *)
Fixpoint all_in_range (h : nat) (w base : PrimInt63.int) : bool :=
  match h with
  | O => Uint63.ltb 720000%uint63 base || in_range base
  | S h' =>
      let w' := Uint63.lsr w 1%uint63 in
      all_in_range h' w' base && all_in_range h' w' (Uint63.add base w')
  end.

(** * Vocabulary of the further properties of the builder *)

(** [p] is a result of the coordinate transform under [shift]. *)
Definition is_output (shift : float) (p : Coord) : Prop :=
  exists x y, p = point_to_coord x y shift.


(** A loop body over groups of [g] coordinates that appends one cubic from
    the transformed old cursor to the transformed new cursor, and makes the
    latter the segment's current point. *)
Definition appends_link (shift : float)
  (body : list float -> Z -> (float * float) * PathSegment
          -> result ((float * float) * PathSegment))
  (g : Z) : Prop :=
  forall coords i pos seg,
    (0 <= i)%Z -> (i + g <= len coords)%Z ->
    exists pos' c,
      body coords i (pos, seg)
      = Ok (pos', set_current_point (append_cubic seg c) (coord_of shift pos'))
      /\ c_p0 c = coord_of shift pos
      /\ c_p3 c = coord_of shift pos'.

(** The cursor [pos'] and the segment [seg'] come from [pos] and [seg] by
    appending the cubics [new] one after the other, each from the
    transformed cursor to the transformed next cursor. *)
Inductive extends (shift : float)
  : float * float -> PathSegment -> list Cubic
    -> float * float -> PathSegment -> Prop :=
| extends_nil (pos : float * float) (seg : PathSegment) :
    extends shift pos seg [] pos seg
| extends_cons (pos pos1 pos' : float * float) (seg seg' : PathSegment)
    (c : Cubic) (new : list Cubic) :
    c_p0 c = coord_of shift pos ->
    c_p3 c = coord_of shift pos1 ->
    extends shift pos1
      (set_current_point (append_cubic seg c) (coord_of shift pos1))
      new pos' seg' ->
    extends shift pos seg (c :: new) pos' seg'.

(** The number of cubics a command draws from its coordinates: one per
    complete group, for M one per complete pair after the first. *)
Definition groups (cmd : ascii) (coords : list float) : nat :=
  match classify cmd with
  | OpM => Z.to_nat ((len coords - 2) / 2)
  | OpC | Opc => Z.to_nat (len coords / 6)
  | OpL | Opl => Z.to_nat (len coords / 2)
  | Opm | OpZ | OpOther => 0%nat
  end.

(** What one command does to the state of the builder. *)
Inductive step_rel (shift : float) (cmd : ascii) (coords : list float)
  (st : Builder) : Builder -> Prop :=
| step_same :
    groups cmd coords = 0%nat ->
    step_rel shift cmd coords st st
| step_move (q pos' : float * float) (seg' : PathSegment) (new : list Cubic) :
    classify cmd = OpM \/ classify cmd = Opm ->
    extends shift q (set_points new_PathSegment (coord_of shift q))
      new pos' seg' ->
    List.length new = groups cmd coords ->
    step_rel shift cmd coords st
      (mkBuilder (flush (segments st) (current_segment st)) (Some seg') pos')
| step_draw (pos' : float * float) (seg' : PathSegment) (new : list Cubic) :
    In cmd DRAW_LETTERS ->
    extends shift (current_pos st)
      (open_segment (current_segment st) (current_pos st) shift)
      new pos' seg' ->
    List.length new = groups cmd coords ->
    step_rel shift cmd coords st (mkBuilder (segments st) (Some seg') pos')
| step_close (seg : PathSegment) (start end_ : Coord) :
    is_closepath cmd ->
    current_segment st = Some seg ->
    start_point seg = Some start ->
    current_point seg = Some end_ ->
    step_rel shift cmd coords st
      (mkBuilder (segments st)
         (Some (set_closed
                  (if sqrt_gt (dist_sq start end_) CLOSE_DIST
                   then append_cubic seg (line_cubic end_ start)
                   else seg)))
         (current_pos st)).

(** The cubics [cs] lead from [from] to [to], each starting where the one
    before it ends. *)
Fixpoint chained (from : Coord) (cs : list Cubic) (to : Coord) : Prop :=
  match cs with
  | [] => from = to
  | c :: rest => c_p0 c = from /\ chained (c_p3 c) rest to
  end.


(** Both end points of a cubic are results of the transform. *)
Definition ends_are_outputs (shift : float) (c : Cubic) : Prop :=
  is_output shift (c_p0 c) /\ is_output shift (c_p3 c).








(** No finished segment, and the current one, if any, is open. *)
Definition all_open (st : Builder) : Prop :=
  match current_segment st with
  | Some seg => is_closed seg = false
  | None => True
  end
  /\ Forall (fun seg => is_closed seg = false) (segments st).



(** The characters of a string. *)
Definition chars (s : string) : list ascii := list_ascii_of_string s.

(** A character that cannot be part of a number: not a digit, not the minus
    sign, not the point. *)
Definition is_separator (c : ascii) : bool :=
  negb (is_digit c) && negb (Ascii.eqb c "-") && negb (Ascii.eqb c ".").

(** * The callers of the builder *)

(** ** A list of path strings *)

(** A [for] loop over the items of a list, threading the loop's variables. *)
Fixpoint for_in {A S : Type} (l : list A) (body : A -> S -> result S) (s : S)
  : result S :=
  match l with
  | [] => Ok s
  | a :: rest => s' <- body a s ;; for_in rest body s'
  end.

Definition process_svg_to_paths (svg_paths : list string) (shift : float)
  : result (list PathDict) :=
  for_in svg_paths
    (fun path_data result_paths =>
       paths <- extract_path_segments path_data shift ;;
       Ok (result_paths ++ paths))
    [].

(** ** The path strings of an SVG document *)

(** An element of the tree that [ET.parse] builds: its tag (a namespaced tag
    is written with the namespace in braces in front), its attributes and its
    children.  The attribute dictionary is a list of keys and values, read
    from the front.  Comments and processing instructions are not in the
    tree, as with the parser [ET.parse] uses. *)
#[warnings="-register-all"]
Inductive Element : Type :=
| mkElement (tag : string) (attrib : list (string * string))
    (children : list Element).

Definition tag (e : Element) : string :=
  match e with mkElement t _ _ => t end.
Definition attrib (e : Element) : list (string * string) :=
  match e with mkElement _ a _ => a end.
Definition children (e : Element) : list Element :=
  match e with mkElement _ _ ch => ch end.

(** [elem.get(key)] *)
Fixpoint get (attributes : list (string * string)) (key : string)
  : option string :=
  match attributes with
  | [] => None
  | (k, v) :: rest => if String.eqb k key then Some v else get rest key
  end.

(** [elem.iter()]: the element and then its descendants, in document
    order. *)
Fixpoint iter (e : Element) : list Element :=
  match e with
  | mkElement _ _ ch => e :: flat_map iter ch
  end.

(** The tag that the path [svg:path] stands for under [namespaces]. *)
Definition SVG_PATH : string := "{http://www.w3.org/2000/svg}path".

(** [root.findall('.//svg:path', namespaces)]: the descendants of the root,
    the root itself excluded, that have the tag, in document order. *)
Definition findall_svg_path (root : Element) : list Element :=
  filter (fun e => String.eqb (tag e) SVG_PATH) (flat_map iter (children root)).

(** [s.endswith(suffix)] *)
Definition endswith (s suffix : string) : bool :=
  let n := String.length s in
  let k := String.length suffix in
  (k <=? n)%nat && String.eqb (substring (n - k) k s) suffix.

(** The loop [d = path.get('d'); if d: paths.append(d)] over [elems]. *)
Definition append_d (paths : list string) (path : Element) : list string :=
  match get (attrib path) "d" with
  | Some d => if String.eqb d EmptyString then paths else paths ++ [d]
  | None => paths
  end.

Definition collect_d (elems : list Element) (paths : list string)
  : list string :=
  fold_left append_d elems paths.

(** The test of the second loop. *)
Definition is_path_tag (e : Element) : bool :=
  endswith (tag e) "path" || String.eqb (tag e) "path".

(** What is found at a file path: nothing, a file that [ET.parse] rejects
    with the message [e], or a document with its root element.  A path that
    exists is taken to name a readable file. *)
Inductive File : Type :=
| NotFound
| Malformed (e : string)
| Document (root : Element).

(** The result is paired with the lines printed. *)
Definition parse_svg_file (fs : string -> File) (filepath : string)
  : list string * list string :=
  match fs filepath with
  | NotFound =>
      ([String.append "  Warning: File not found: " filepath], [])
  | Malformed e =>
      ([String.append "  Error parsing "
          (String.append filepath (String.append ": " e))], [])
  | Document root =>
      let paths := collect_d (findall_svg_path root) [] in
      let paths :=
        match paths with
        | [] => collect_d (filter is_path_tag (iter root)) paths
        | _ :: _ => paths
        end in
      ([], paths)
  end.

(** ** The document *)

(** [if s:] for an argument that is a string or [None]. *)
Definition truthy (s : option string) : bool :=
  match s with
  | Some s => negb (String.eqb s EmptyString)
  | None => false
  end.

(** [str(n)] for a length. *)
Definition str_of_nat (n : nat) : string :=
  NilZero.string_of_uint (Nat.to_uint n).

(** The text [Bézier curves], its second letter the code point 233. *)
Definition BEZIER_CURVES : string :=
  String "B" (String "233" "zier curves").

(** The meta dictionary and the layer of the document; the layer's ["id"], a
    fresh random [uuid4] string, is not part of the model. *)
Module Meta.
Record t : Type := mk { name : string; created : string; modified : string }.
End Meta.

Module Layer.
Record t : Type := mk {
  name : string;
  isVisible : bool;
  isLocked : bool;
  paths : list PathDict
}.
End Layer.

Record GlobeDocument : Type := mkGlobeDocument {
  formatVersion : string;
  meta : Meta.t;
  layers : list Layer.t
}.

(** [sum(len(p.get("cubicSegments", [])) for p in converted)] *)
Definition count_curves (converted : list PathDict) : nat :=
  list_sum (map (fun p => List.length (cubicSegments p)) converted).

(** The variables of [create_globe_document]: the lines printed so far,
    [all_paths] and [total_curves]. *)
Record Progress : Type := mkProgress {
  printed : list string;
  all_paths : list PathDict;
  total_curves : nat
}.

(** The block [if inner_svg: ...], and the same block for [outer_svg], with
    the shift of the source. *)
Definition convert_source (fs : string -> File) (svg : option string)
  (shift : float) (s : Progress) : result Progress :=
  match svg with
  | Some file =>
      if truthy svg then
        let out :=
          printed s
          ++ [String.append "Processing " (String.append file "...")] in
        let '(warnings, svg_paths) := parse_svg_file fs file in
        let out :=
          out ++ warnings
          ++ [String.append "  Found "
                (String.append (str_of_nat (List.length svg_paths))
                   " SVG paths")] in
        converted <- process_svg_to_paths svg_paths shift ;;
        let curves := count_curves converted in
        let out :=
          out
          ++ [String.append "  Converted to "
                (String.append (str_of_nat (List.length converted))
                   (String.append " segments with "
                      (String.append (str_of_nat curves)
                         (String " " BEZIER_CURVES))))] in
        Ok (mkProgress out (all_paths s ++ converted) (total_curves s + curves))
      else Ok s
  | None => Ok s
  end.

(** The last line printed; it starts with a line feed. *)
Definition total_line (n_paths n_curves : nat) : string :=
  String "010"
    (String.append "Total: "
       (String.append (str_of_nat n_paths)
          (String.append " paths, "
             (String.append (str_of_nat n_curves)
                (String " " BEZIER_CURVES))))).

(** [fs] is what the file system holds and [now] the text of the current
    time, [datetime.now(timezone.utc).isoformat()] with its offset replaced
    by Z.  The result is the lines printed and the document. *)
Definition create_globe_document (fs : string -> File) (now : string)
  (inner_svg outer_svg : option string) (name : string)
  : result (list string * GlobeDocument) :=
  s <- convert_source fs inner_svg INNER_SHIFT (mkProgress [] [] 0%nat) ;;
  s <- convert_source fs outer_svg OUTER_SHIFT s ;;
  let document :=
    mkGlobeDocument "2.0" (Meta.mk name now now)
      [Layer.mk "Coastlines" true false (all_paths s)] in
  Ok (printed s
      ++ [total_line (List.length (all_paths s)) (total_curves s)],
      document).

(** ** The arguments of main *)

(** [c.lower()] for a code point below 256: the capital letters are A to Z
    and, in Latin-1, 192 to 222 without the multiplication sign 215. *)
Definition lower_char (c : ascii) : ascii :=
  let n := nat_of_ascii c in
  if ((65 <=? n)%nat && (n <=? 90)%nat)
     || ((192 <=? n)%nat && (n <=? 222)%nat && negb (n =? 215)%nat)
  then ascii_of_nat (n + 32)
  else c.

Fixpoint lower (s : string) : string :=
  match s with
  | EmptyString => EmptyString
  | String c rest => String (lower_char c) (lower rest)
  end.

(** [needle in hay] *)
Fixpoint contains (needle hay : string) : bool :=
  prefix needle hay
  || match hay with
     | EmptyString => false
     | String _ rest => contains needle rest
     end.

(** The body of the loop of [main] over [args.svg_files]; the loop's
    variables are [inner_svg] and [outer_svg]. *)
Definition assign_file (roles : option string * option string) (f : string)
  : option string * option string :=
  let '(inner_svg, outer_svg) := roles in
  if contains "inner" (lower f) then (Some f, outer_svg)
  else if contains "outer" (lower f) then (inner_svg, Some f)
  else if negb (truthy inner_svg) then (Some f, outer_svg)
  else if negb (truthy outer_svg) then (inner_svg, Some f)
  else (inner_svg, outer_svg).

(** [main] from the parsed arguments to its call of
    [create_globe_document]: [inner] and [outer] are [args.inner] and
    [args.outer], [None] when the option is not given.  The result is [None]
    when main prints that no SVG files are specified and returns; otherwise
    it is the two sources that the document is made from. *)
Definition main_sources (inner outer : option string)
  (svg_files : list string) : option (option string * option string) :=
  let '(inner_svg, outer_svg) := fold_left assign_file svg_files (inner, outer) in
  if negb (truthy inner_svg) && negb (truthy outer_svg) then None
  else Some (inner_svg, outer_svg).

(** [small] is [big] with some items left out. *)
Inductive subseq {A : Type} : list A -> list A -> Prop :=
| subseq_nil : subseq [] []
| subseq_skip (x : A) (small big : list A) :
    subseq small big -> subseq small (x :: big)
| subseq_keep (x : A) (small big : list A) :
    subseq small big -> subseq (x :: small) (x :: big).

(** The [d] attribute of an element when it is a non-empty string. *)
Definition d_of (e : Element) : list string :=
  match get (attrib e) "d" with
  | Some d => if String.eqb d EmptyString then [] else [d]
  | None => []
  end.


(** A file name that the loop of [main] takes for neither role by its
    name. *)
Definition unnamed (f : string) : Prop :=
  contains "inner" (lower f) = false /\ contains "outer" (lower f) = false.

(** * Examples *)

Example ex_origin : point_to_coord 2085 834 0 = (neg_zero, zero).
Proof. vm_compute. reflexivity. Qed.

Example ex_corner : point_to_coord 0 0 0 = (72, -180).
Proof. vm_compute. reflexivity. Qed.

Example ex_origin_exact : Exact.point_to_coord 2085 834 0 = (0, 0)%Q.
Proof. vm_compute. reflexivity. Qed.

Example ex_parse_1 :
  parse_path_commands "M0,0L100,0Z"
  = Ok [("M"%char, [0; 0]); ("L"%char, [100; 0]); ("Z"%char, [])].
Proof. vm_compute. reflexivity. Qed.

Example ex_parse_2 :
  parse_path_commands "x1 m-1.5-.25 1.2.3e4 c --7. z-0"
  = Ok [("m"%char, [-1.5; 25; decimal 12 1; 3; 4]);
        ("c"%char, [-7]); ("z"%char, [neg_zero])].
Proof. vm_compute. reflexivity. Qed.

Example ex_extract_1 :
  show (extract_path_segments "M0,0L100,0Z" 0) = [(2%nat, true)].
Proof. vm_compute. reflexivity. Qed.

(** * Properties *)

(** ** Rounding *)

Section Rounding.

#[local] Open Scope Q_scope.

Lemma round_half_even_cases (x : Q) :
  round_half_even x = Qfloor x \/ round_half_even x = (Qfloor x + 1)%Z.
Proof.
  unfold round_half_even.
  destruct (Qcompare (x - inject_Z (Qfloor x)) (1 # 2)); auto.
  destruct (Z.even (Qfloor x)); auto.
Qed.

Lemma round_half_even_comp (x y : Q) :
  x == y -> round_half_even x = round_half_even y.
Proof.
  intros H. unfold round_half_even.
  rewrite (Qfloor_comp _ _ H).
  assert (E : x - inject_Z (Qfloor y) == y - inject_Z (Qfloor y))
    by (rewrite H; reflexivity).
  rewrite (Qcompare_comp _ _ E _ _ (Qeq_refl (1 # 2))).
  reflexivity.
Qed.

Lemma round_half_even_Z (m : Z) : round_half_even (inject_Z m) = m.
Proof.
  unfold round_half_even. rewrite Qfloor_Z.
  assert (E : inject_Z m - inject_Z m == 0) by ring.
  rewrite (Qcompare_comp _ _ E _ _ (Qeq_refl (1 # 2))).
  reflexivity.
Qed.

Lemma round_half_even_ge (m : Z) (y : Q) :
  inject_Z m <= y -> (m <= round_half_even y)%Z.
Proof.
  intros H.
  assert (F : (m <= Qfloor y)%Z).
  { rewrite <- (Qfloor_Z m). apply Qfloor_resp_le. exact H. }
  destruct (round_half_even_cases y) as [-> | ->]; lia.
Qed.

Lemma round_half_even_le (m : Z) (y : Q) :
  y <= inject_Z m -> (round_half_even y <= m)%Z.
Proof.
  intros H.
  assert (F : (Qfloor y <= m)%Z).
  { rewrite <- (Qfloor_Z m). apply Qfloor_resp_le. exact H. }
  destruct (Z.eq_dec (Qfloor y) m) as [E | NE].
  - assert (Y : y == inject_Z m).
    { apply Qle_antisym; [exact H |]. rewrite <- E. apply Qfloor_le. }
    rewrite (round_half_even_comp _ _ Y), round_half_even_Z. lia.
  - destruct (round_half_even_cases y) as [-> | ->]; lia.
Qed.

Lemma scale_pos (n : N) : Z.pos (Z.to_pos (10 ^ Z.of_N n)) = (10 ^ Z.of_N n)%Z.
Proof. apply Z2Pos.id. apply Z.pow_pos_nonneg; lia. Qed.

Lemma py_round_comp (x y : Q) (n : N) : x == y -> Exact.py_round x n = Exact.py_round y n.
Proof.
  intros H. unfold Exact.py_round.
  assert (E : x * inject_Z (Z.pos (Z.to_pos (10 ^ Z.of_N n)))
              == y * inject_Z (Z.pos (Z.to_pos (10 ^ Z.of_N n))))
    by (rewrite H; reflexivity).
  rewrite (round_half_even_comp _ _ E). reflexivity.
Qed.

Lemma py_round_value (x : Q) (n : N) :
  Exact.py_round x n
  == round_half_even (x * inject_Z (Z.pos (Z.to_pos (10 ^ Z.of_N n))))
     # Z.to_pos (10 ^ Z.of_N n).
Proof. unfold Exact.py_round. apply Qred_correct. Qed.

(** Rounding never crosses an integer. *)
Lemma py_round_ge (m : Z) (x : Q) (n : N) :
  inject_Z m <= x -> inject_Z m <= Exact.py_round x n.
Proof.
  intros H. rewrite py_round_value.
  set (s := Z.to_pos (10 ^ Z.of_N n)).
  assert (R : (m * Z.pos s <= round_half_even (x * inject_Z (Z.pos s)))%Z).
  { apply round_half_even_ge. rewrite inject_Z_mult.
    apply Qmult_le_compat_r; [exact H |]. unfold Qle; simpl; lia. }
  revert R. generalize (round_half_even (x * inject_Z (Z.pos s))).
  intros k R. unfold Qle, inject_Z; simpl. lia.
Qed.

Lemma py_round_le (m : Z) (x : Q) (n : N) :
  x <= inject_Z m -> Exact.py_round x n <= inject_Z m.
Proof.
  intros H. rewrite py_round_value.
  set (s := Z.to_pos (10 ^ Z.of_N n)).
  assert (R : (round_half_even (x * inject_Z (Z.pos s)) <= m * Z.pos s)%Z).
  { apply round_half_even_le. rewrite inject_Z_mult.
    apply Qmult_le_compat_r; [exact H |]. unfold Qle; simpl; lia. }
  revert R. generalize (round_half_even (x * inject_Z (Z.pos s))).
  intros k R. unfold Qle, inject_Z; simpl. lia.
Qed.

(** An integer is its own rounding. *)
Lemma py_round_Z (m : Z) (x : Q) (n : N) :
  x == inject_Z m -> Exact.py_round x n = Qred (inject_Z m).
Proof.
  intros H. rewrite (py_round_comp _ _ n H). unfold Exact.py_round.
  apply Qred_complete.
  set (s := Z.to_pos (10 ^ Z.of_N n)).
  rewrite <- inject_Z_mult, round_half_even_Z.
  unfold Qeq, inject_Z; simpl. lia.
Qed.

End Rounding.

(** ** Coordinate transform in exact arithmetic *)

Section ExactTransform.

#[local] Open Scope Q_scope.

Lemma exact_point_to_coord_eq (x y shift : Q) :
  Exact.point_to_coord x y shift
  = (Exact.py_round (Exact.py_max (- Exact.LAT_RANGE) (Exact.py_min Exact.LAT_RANGE (Exact.raw_lat y))) 4,
     Exact.py_round (Exact.raw_lon (x + shift)) 4).
Proof. reflexivity. Qed.

Lemma clamp_bounds (lat : Q) :
  - Exact.LAT_RANGE <= Exact.py_max (- Exact.LAT_RANGE) (Exact.py_min Exact.LAT_RANGE lat)
  /\ Exact.py_max (- Exact.LAT_RANGE) (Exact.py_min Exact.LAT_RANGE lat) <= Exact.LAT_RANGE.
Proof.
  unfold Exact.py_max, Exact.py_min, Exact.LAT_RANGE.
  destruct (Qlt_le_dec lat 72) as [H1 | H1];
    [ destruct (Qlt_le_dec (- (72)) lat) as [H2 | H2]
    | destruct (Qlt_le_dec (- (72)) 72) as [H2 | H2] ];
    split; lra.
Qed.

Lemma clamp_above (lat : Q) :
  Exact.LAT_RANGE < lat -> Exact.py_max (- Exact.LAT_RANGE) (Exact.py_min Exact.LAT_RANGE lat) = Exact.LAT_RANGE.
Proof.
  unfold Exact.py_max, Exact.py_min, Exact.LAT_RANGE. intros H.
  destruct (Qlt_le_dec lat 72) as [H1 | H1]; [lra |].
  destruct (Qlt_le_dec (- (72)) 72) as [H2 | H2]; [reflexivity | lra].
Qed.

Lemma clamp_below (lat : Q) :
  lat < - Exact.LAT_RANGE -> Exact.py_max (- Exact.LAT_RANGE) (Exact.py_min Exact.LAT_RANGE lat) = - Exact.LAT_RANGE.
Proof.
  unfold Exact.py_max, Exact.py_min, Exact.LAT_RANGE. intros H.
  destruct (Qlt_le_dec lat 72) as [H1 | H1]; [| lra].
  destruct (Qlt_le_dec (- (72)) lat) as [H2 | H2]; [lra | reflexivity].
Qed.

Lemma clamp_inside (lat : Q) :
  - Exact.LAT_RANGE <= lat -> lat <= Exact.LAT_RANGE ->
  Exact.py_max (- Exact.LAT_RANGE) (Exact.py_min Exact.LAT_RANGE lat) == lat.
Proof.
  unfold Exact.py_max, Exact.py_min, Exact.LAT_RANGE. intros Ha Hb.
  destruct (Qlt_le_dec lat 72) as [H1 | H1];
    [ destruct (Qlt_le_dec (- (72)) lat) as [H2 | H2]
    | destruct (Qlt_le_dec (- (72)) 72) as [H2 | H2] ]; lra.
Qed.

Lemma lon_at_x_of_lon (m : Z) (y shift : Q) :
  snd (Exact.point_to_coord (x_of_lon m shift) y shift) == inject_Z m.
Proof.
  rewrite exact_point_to_coord_eq. cbn [snd].
  rewrite (py_round_Z m).
  - apply Qred_correct.
  - unfold Exact.raw_lon, x_of_lon, Exact.SVG_WIDTH, Exact.LON_RANGE. field.
Qed.

End ExactTransform.

(** ** The latitude clamp on doubles *)

Section Transform.

#[local] Open Scope Q_scope.

Lemma digits2_pos_bound (m : positive) :
  (Z.pos m < 2 ^ Z.pos (digits2_pos m))%Z.
Proof.
  induction m as [m IH | m IH |]; cbn [digits2_pos].
  - rewrite Pos2Z.inj_succ, Z.pow_succ_r by lia. lia.
  - rewrite Pos2Z.inj_succ, Z.pow_succ_r by lia. lia.
  - reflexivity.
Qed.

(** The mantissa of a valid double is below 2^53. *)
Lemma valid_mantissa (s : bool) (m : positive) (e : Z) :
  valid_binary (S754_finite s m e) = true -> (Z.pos m < 2 ^ 53)%Z.
Proof.
  cbn [SpecFloat.valid_binary]. unfold bounded, canonical_mantissa, fexp.
  intros H. apply andb_prop in H. destruct H as (H & _).
  apply Z.eqb_eq in H.
  assert (D : (Z.pos (digits2_pos m) <= 53)%Z) by (unfold prec in H; lia).
  pose proof (digits2_pos_bound m) as B.
  assert ((2 ^ Z.pos (digits2_pos m) <= 2 ^ 53)%Z)
    by (apply Z.pow_le_mono_r; lia).
  lia.
Qed.

Lemma pow2_neg (e : Z) :
  (e < 0)%Z -> Binary64.pow2 e = 1 # Z.to_pos (2 ^ (- e)).
Proof.
  intros H. unfold Binary64.pow2.
  destruct (Z.leb_spec 0 e); [lia | reflexivity].
Qed.

(** A double of exponent at most -46, with a mantissa below that of 72 at
    the exponent -46, is below 72. *)
Lemma small_value (m : positive) (e : Z) :
  (Z.pos m < 2 ^ 53)%Z ->
  (e < -46 \/ (e = -46 /\ Z.pos m < Z.pos M72))%Z ->
  0 < inject_Z (Z.pos m) * Binary64.pow2 e
  /\ inject_Z (Z.pos m) * Binary64.pow2 e < 72.
Proof.
  intros Hm He. rewrite pow2_neg by lia.
  assert (P : (0 < 2 ^ (- e))%Z) by (apply Z.pow_pos_nonneg; lia).
  unfold Qlt, Qmult, inject_Z. cbn [Qnum Qden].
  rewrite Pos.mul_1_l, Z2Pos.id by lia.
  split; [lia |].
  destruct He as [He | (-> & Hs)].
  - assert (B' : (2 ^ 47 <= 2 ^ (- e))%Z) by (apply Z.pow_le_mono_r; lia).
    change (2 ^ 53)%Z with (64 * 2 ^ 47)%Z in Hm. lia.
  - change (Z.pos M72) with 5066549580791808%Z in Hs.
    change (2 ^ (- -46))%Z with 70368744177664%Z. lia.
Qed.

Lemma Prim2SF_72 : Prim2SF 72%float = SF72 /\ Prim2SF (-72)%float = SFm72.
Proof. vm_compute. split; reflexivity. Qed.

Lemma below_72 (m : positive) (e : Z) :
  SFltb (S754_finite false m e) SF72 = true ->
  (e < -46 \/ (e = -46 /\ Z.pos m < Z.pos M72))%Z.
Proof.
  unfold SFltb, SFcompare, SF72.
  destruct (Z.compare_spec e (-46)) as [E | E | E]; intros H.
  - right. split; [exact E |].
    destruct (Pos.compare_cont Eq m M72) eqn:C; try discriminate H.
    exact (proj1 (Pos.compare_lt_iff m M72) C).
  - left. exact E.
  - discriminate H.
Qed.

Lemma above_m72 (m : positive) (e : Z) :
  SFltb SFm72 (S754_finite true m e) = true ->
  (e < -46 \/ (e = -46 /\ Z.pos m < Z.pos M72))%Z.
Proof.
  unfold SFltb, SFcompare, SFm72.
  destruct (Z.compare_spec (-46) e) as [E | E | E]; intros H.
  - right. split; [symmetry; exact E |].
    destruct (Pos.compare_cont Eq M72 m) eqn:C; try discriminate H.
    exact (proj1 (Pos.compare_gt_iff M72 m) C).
  - discriminate H.
  - left. lia.
Qed.

(** A valid double strictly between -72 and 72 has an exact value strictly
    between -72 and 72. *)
Lemma value_between (f : spec_float) :
  valid_binary f = true ->
  SFltb SFm72 f = true -> SFltb f SF72 = true ->
  exists q, Binary64.value f = Some q /\ - (72) < q /\ q < 72.
Proof.
  intros V Hlo Hhi. destruct f as [s | s | | s m e].
  - exists 0. split; [reflexivity | split; reflexivity].
  - destruct s; discriminate.
  - discriminate.
  - pose proof (valid_mantissa s m e V) as Hm.
    destruct s.
    + destruct (small_value m e Hm (above_m72 m e Hlo)) as (P & B).
      eexists. split; [reflexivity |]. cbn beta iota. split; lra.
    + destruct (small_value m e Hm (below_72 m e Hhi)) as (P & B).
      eexists. split; [reflexivity |]. cbn beta iota. split; lra.
Qed.

Lemma all_in_range_checked : all_in_range 20 1048576%uint63 0%uint63 = true.
Proof. vm_compute. reflexivity. Qed.

Lemma all_in_range_spec (h : nat) :
  forall w base : PrimInt63.int,
    Uint63.to_Z w = (2 ^ Z.of_nat h)%Z ->
    (Uint63.to_Z base + 2 ^ Z.of_nat h <= Uint63.wB)%Z ->
    all_in_range h w base = true ->
    forall i : PrimInt63.int,
      (Uint63.to_Z base <= Uint63.to_Z i < Uint63.to_Z base + 2 ^ Z.of_nat h)%Z ->
      (Uint63.to_Z i <= 720000)%Z ->
      in_range i = true.
Proof.
  induction h as [| h IH]; intros w base Hw Hb Hall i Hi Hmax.
  - cbn [all_in_range] in Hall. change (2 ^ Z.of_nat 0)%Z with 1%Z in Hi.
    assert (E : i = base) by (apply Uint63.to_Z_inj; lia). subst i.
    apply orb_prop in Hall. destruct Hall as [Hall | Hall]; [| exact Hall].
    apply Uint63.ltb_spec in Hall.
    change (Uint63.to_Z 720000%uint63) with 720000%Z in Hall. lia.
  - cbn [all_in_range] in Hall. apply andb_prop in Hall.
    destruct Hall as (Hl & Hr).
    rewrite Nat2Z.inj_succ, Z.pow_succ_r in Hi, Hb, Hw by lia.
    assert (P : (0 < 2 ^ Z.of_nat h)%Z) by (apply Z.pow_pos_nonneg; lia).
    assert (W : Uint63.to_Z (Uint63.lsr w 1%uint63) = (2 ^ Z.of_nat h)%Z).
    { rewrite Uint63.lsr_spec, Hw.
      change (2 ^ Uint63.to_Z 1%uint63)%Z with 2%Z.
      rewrite Z.mul_comm, Z.div_mul by lia. reflexivity. }
    pose proof (Uint63.to_Z_bounded base) as Bb.
    assert (A : Uint63.to_Z (Uint63.add base (Uint63.lsr w 1%uint63))
                = (Uint63.to_Z base + 2 ^ Z.of_nat h)%Z).
    { rewrite Uint63.add_spec, W. apply Z.mod_small. lia. }
    destruct (Z.lt_ge_cases (Uint63.to_Z i)
                (Uint63.to_Z base + 2 ^ Z.of_nat h)) as [L | G].
    + apply (IH (Uint63.lsr w 1%uint63) base W);
        [lia | exact Hl | lia | exact Hmax].
    + apply (IH (Uint63.lsr w 1%uint63)
                (Uint63.add base (Uint63.lsr w 1%uint63)) W);
        [rewrite A; lia | exact Hr | rewrite A; lia | exact Hmax].
Qed.

(** The double nearest to n / 10000, for an integer n of absolute value at
    most 720000, lies between -72 and 72. *)
Lemma quotient_bound (sg : bool) (n : Z) :
  (-720000 <= n <= 720000)%Z ->
  PrimFloat.leb (-72)%float (Binary64.quotient sg n 10000) = true
  /\ PrimFloat.leb (Binary64.quotient sg n 10000) 72%float = true.
Proof.
  intros Hn. unfold Binary64.quotient.
  destruct (Z.eqb_spec n 0) as [-> | Hz].
  - destruct sg; vm_compute; split; reflexivity.
  - assert (G : ((Z.abs n <? 2 ^ 53)%Z && (10000 <? 2 ^ 53)%Z)%bool = true).
    { apply andb_true_intro. split; [| reflexivity].
      apply Z.ltb_lt. change (2 ^ 53)%Z with 9007199254740992%Z. lia. }
    rewrite G.
    change (Binary64.of_int 10000) with 10000%float.
    assert (R : forall k, (0 <= k <= 720000)%Z ->
                          in_range (Uint63.of_Z k) = true).
    { intros k Hk.
      apply (all_in_range_spec 20 1048576%uint63 0%uint63).
      - reflexivity.
      - vm_compute. discriminate.
      - exact all_in_range_checked.
      - rewrite Uint63.of_Z_spec, Z.mod_small
          by (change Uint63.wB with 9223372036854775808%Z; lia).
        change (Uint63.to_Z 0%uint63) with 0%Z.
        change (2 ^ Z.of_nat 20)%Z with 1048576%Z. lia.
      - rewrite Uint63.of_Z_spec, Z.mod_small
          by (change Uint63.wB with 9223372036854775808%Z; lia).
        lia. }
    unfold Binary64.of_int. destruct (Z.ltb_spec n 0) as [N | N].
    + specialize (R (- n)%Z ltac:(lia)). unfold in_range in R.
      apply andb_prop in R. destruct R as (R & R4).
      apply andb_prop in R. destruct R as (R & R3).
      split; assumption.
    + specialize (R n ltac:(lia)). unfold in_range in R.
      apply andb_prop in R. destruct R as (R & R4).
      apply andb_prop in R. destruct R as (R & R3).
      apply andb_prop in R. destruct R as (R1 & R2).
      split; assumption.
Qed.

Lemma SFltb_antisym (a b : spec_float) :
  SFltb a b = true -> SFltb b a = false.
Proof.
  unfold SFltb, SFcompare.
  destruct a as [sa | sa | | sa ma ea], b as [sb | sb | | sb mb eb];
    try destruct sa; try destruct sb; cbn; try discriminate; try reflexivity.
  - rewrite (Z.compare_antisym ea eb).
    change (Pos.compare_cont Eq mb ma) with (Pos.compare mb ma).
    change (Pos.compare_cont Eq ma mb) with (Pos.compare ma mb).
    rewrite (Pos.compare_antisym ma mb).
    destruct (ea ?= eb)%Z; cbn; try discriminate; try reflexivity.
    destruct (ma ?= mb)%positive; cbn; try discriminate; reflexivity.
  - rewrite (Z.compare_antisym ea eb).
    change (Pos.compare_cont Eq mb ma) with (Pos.compare mb ma).
    change (Pos.compare_cont Eq ma mb) with (Pos.compare ma mb).
    rewrite (Pos.compare_antisym ma mb).
    destruct (ea ?= eb)%Z; cbn; try discriminate; try reflexivity.
    destruct (ma ?= mb)%positive; cbn; try discriminate; reflexivity.
Qed.

Lemma ltb_antisym (a b : float) :
  PrimFloat.ltb a b = true -> PrimFloat.ltb b a = false.
Proof. rewrite !FloatAxioms.ltb_spec. apply SFltb_antisym. Qed.



(** Below -72 is below 72. *)
Lemma ltb_m72_72 (v : float) :
  PrimFloat.ltb v (-72)%float = true -> PrimFloat.ltb v 72%float = true.
Proof.
  rewrite !FloatAxioms.ltb_spec.
  destruct Prim2SF_72 as (-> & ->).
  unfold SFltb, SFcompare, SF72, SFm72.
  destruct (Prim2SF v) as [s | s | | s m e]; try destruct s;
    try discriminate; try reflexivity.
Qed.

Lemma py_round_between (v : float) :
  PrimFloat.ltb (-72)%float v = true -> PrimFloat.ltb v 72%float = true ->
  exists n, (-720000 <= n <= 720000)%Z
            /\ Binary64.py_round v 4 = Binary64.quotient (get_sign v) n 10000.
Proof.
  rewrite !FloatAxioms.ltb_spec.
  destruct Prim2SF_72 as (-> & ->). intros Hlo Hhi.
  destruct (value_between (Prim2SF v) (Prim2SF_valid v) Hlo Hhi)
    as (q & Hq & Ql & Qh).
  unfold Binary64.py_round, Binary64.exact. rewrite Hq.
  change (Z.to_pos (10 ^ Z.of_N 4)) with 10000%positive.
  eexists. split; [| reflexivity].
  split.
  - apply round_half_even_ge.
    change (inject_Z (-720000)) with (- (720000 # 1)).
    change (inject_Z 10000) with (10000 # 1). lra.
  - apply round_half_even_le.
    change (inject_Z 720000) with (720000 # 1).
    change (inject_Z 10000) with (10000 # 1). lra.
Qed.

Lemma clamped_on_doubles (v : float) :
  let c := Binary64.py_round
             (Binary64.py_max (-72)%float (Binary64.py_min 72%float v)) 4 in
  (PrimFloat.leb (-72)%float c = true /\ PrimFloat.leb c 72%float = true)
  /\ (PrimFloat.ltb 72%float v = true -> c = 72%float)
  /\ (PrimFloat.ltb v (-72)%float = true -> c = (-72)%float)
  /\ (PrimFloat.ltb (-72)%float v = true -> PrimFloat.ltb v 72%float = true ->
      c = Binary64.py_round v 4).
Proof.
  cbv zeta. unfold Binary64.py_max, Binary64.py_min.
  destruct (PrimFloat.ltb v 72%float) eqn:B1.
  - destruct (PrimFloat.ltb (-72)%float v) eqn:B2.
    + split; [| split; [| split]].
      * destruct (py_round_between v B2 B1) as (n & Hn & ->).
        apply quotient_bound. exact Hn.
      * intros H. apply ltb_antisym in H. congruence.
      * intros H. apply ltb_antisym in H. congruence.
      * reflexivity.
    + split; [| split; [| split]].
      * vm_compute. split; reflexivity.
      * intros H. apply ltb_antisym in H. congruence.
      * intros _. vm_compute. reflexivity.
      * discriminate.
  - change (PrimFloat.ltb (-72)%float 72%float) with true. cbv iota.
    split; [| split; [| split]].
    + vm_compute. split; reflexivity.
    + intros _. vm_compute. reflexivity.
    + intros H. apply ltb_m72_72 in H. congruence.
    + discriminate.
Qed.


(** In exact arithmetic: the latitude lies in [-72, 72], a raw latitude
    outside gives the boundary, one inside is only rounded; the longitude
    is the rounded affine formula and exceeds every bound. *)
Lemma latitude_clamped_exact (x y shift : Q) :
  let c := Exact.point_to_coord x y shift in
  (- (72) <= fst c /\ fst c <= 72)
  /\ (72 < Exact.raw_lat y -> fst c = 72)
  /\ (Exact.raw_lat y < - (72) -> fst c = - (72))
  /\ (- (72) <= Exact.raw_lat y -> Exact.raw_lat y <= 72 ->
      fst c = Exact.py_round (Exact.raw_lat y) 4)
  /\ snd c = Exact.py_round (Exact.raw_lon (x + shift)) 4
  /\ (forall bound : Q,
         (exists x', bound <= snd (Exact.point_to_coord x' y shift))
         /\ (exists x', snd (Exact.point_to_coord x' y shift) <= - bound)).
Proof.
  intros c. subst c. rewrite exact_point_to_coord_eq. cbn [fst snd].
  repeat split.
  - apply (py_round_ge (-72)). apply clamp_bounds.
  - apply (py_round_le 72). apply clamp_bounds.
  - intros H. rewrite (clamp_above _ H). reflexivity.
  - intros H. rewrite (clamp_below _ H). reflexivity.
  - intros Ha Hb. apply py_round_comp. apply clamp_inside; assumption.
  - exists (x_of_lon (Qceiling bound) shift).
    rewrite lon_at_x_of_lon. apply Qle_ceiling.
  - exists (x_of_lon (Qfloor (- bound)) shift).
    rewrite lon_at_x_of_lon. apply Qfloor_le.
Qed.

(** C4: for every raw point, on doubles as in exact arithmetic, the output
    latitude lies in [-72, 72]; a raw latitude above 72 gives exactly 72 and
    one below -72 gives exactly -72; a raw latitude strictly inside is only
    rounded.  The output longitude is the rounded affine formula of
    x + shift, with no clamp; in exact arithmetic it exceeds every bound in
    both directions. *)
Theorem latitude_clamped_longitude_free :
  (forall x y shift : float,
      let c := point_to_coord x y shift in
      let lat := raw_lat y in
      (PrimFloat.leb (-72)%float (fst c) = true
       /\ PrimFloat.leb (fst c) 72%float = true)
      /\ (PrimFloat.ltb 72%float lat = true -> fst c = 72%float)
      /\ (PrimFloat.ltb lat (-72)%float = true -> fst c = (-72)%float)
      /\ (PrimFloat.ltb (-72)%float lat = true ->
          PrimFloat.ltb lat 72%float = true ->
          fst c = Binary64.py_round lat 4)
      /\ snd c = Binary64.py_round (raw_lon (x + shift)%float) 4
      /\ snd (point_to_coord 6255 y 0) = 360%float)
  /\ (forall x y shift : Q,
         let c := Exact.point_to_coord x y shift in
         (- (72) <= fst c /\ fst c <= 72)
         /\ (72 < Exact.raw_lat y -> fst c = 72)
         /\ (Exact.raw_lat y < - (72) -> fst c = - (72))
         /\ (- (72) <= Exact.raw_lat y -> Exact.raw_lat y <= 72 ->
             fst c = Exact.py_round (Exact.raw_lat y) 4)
         /\ snd c = Exact.py_round (Exact.raw_lon (x + shift)) 4
         /\ (forall bound : Q,
                (exists x', bound <= snd (Exact.point_to_coord x' y shift))
                /\ (exists x',
                       snd (Exact.point_to_coord x' y shift) <= - bound))).
Proof.
  split.
  - intros x y shift c lat.
    destruct (clamped_on_doubles lat) as (Hb & Ha & Hl & Hi).
    split; [exact Hb |]. split; [exact Ha |]. split; [exact Hl |].
    split; [exact Hi |]. split; [reflexivity |].
    vm_compute. reflexivity.
  - exact latitude_clamped_exact.
Qed.

Lemma latitude_clamped_witness :
  fst (point_to_coord 0 (-1) 0) = 72%float
  /\ fst (point_to_coord 0 1669 0) = (-72)%float
  /\ fst (point_to_coord 0 417 0) = 36%float
  /\ snd (point_to_coord 6255 417 0) = 360%float
  /\ fst (Exact.point_to_coord 0 (-1) 0) = 72
  /\ fst (Exact.point_to_coord 0 1669 0) = - (72)
  /\ fst (Exact.point_to_coord 0 417 0) = 36
  /\ snd (Exact.point_to_coord 6255 417 0) = 360.
Proof.
  destruct latitude_clamped_longitude_free as (D & E).
  pose proof (D 0%float (-1)%float 0%float) as Da.
  pose proof (D 0%float 1669%float 0%float) as Db.
  pose proof (D 0%float 417%float 0%float) as Dc.
  pose proof (D 6255%float 417%float 0%float) as Dd.
  pose proof (E 0 (-1) 0) as Ea.
  pose proof (E 0 1669 0) as Eb.
  pose proof (E 0 417 0) as Ec.
  pose proof (E 6255 417 0) as Ed.
  cbv zeta in Da, Db, Dc, Dd, Ea, Eb, Ec, Ed.
  destruct Da as (_ & Da & _).
  destruct Db as (_ & _ & Db & _).
  destruct Dc as (_ & _ & _ & Dc & _).
  destruct Dd as (_ & _ & _ & _ & Dd & _).
  destruct Ea as (_ & Ea & _).
  destruct Eb as (_ & _ & Eb & _).
  destruct Ec as (_ & _ & _ & Ec & _).
  destruct Ed as (_ & _ & _ & _ & Ed & _).
  split; [| split; [| split; [| split; [| split; [| split; [| split]]]]]].
  - apply Da. vm_compute. reflexivity.
  - apply Db. vm_compute. reflexivity.
  - rewrite Dc; vm_compute; reflexivity.
  - rewrite Dd. vm_compute. reflexivity.
  - apply Ea. vm_compute. reflexivity.
  - apply Eb. vm_compute. reflexivity.
  - rewrite Ec; [vm_compute; reflexivity | |]; vm_compute; discriminate.
  - rewrite Ed. vm_compute. reflexivity.
Defined.

(** On doubles the two longitudes of the shift equivalence can differ.  At
    x = 104.2517375 the exact longitude is -176.99985, a tie of the rounding
    to four decimals; x + INNER_SHIFT is the double 34.751737500000004,
    but (x + INNER_SHIFT - OUTER_SHIFT) + OUTER_SHIFT is 34.75173749999999,
    and the two products fall on opposite sides of the tie.  The same
    happens when the second x is read from the text -1980.7482625. *)
Lemma shift_equivalence_fails_on_doubles :
  snd (point_to_coord (Binary64.decimal 1042517375 7) 834
         INNER_SHIFT)
  = Binary64.decimal (-1769998) 4
  /\ snd (point_to_coord
            (Binary64.decimal 1042517375 7 + INNER_SHIFT
             - OUTER_SHIFT)%float
            834 OUTER_SHIFT)
     = Binary64.decimal (-1769999) 4
  /\ snd (point_to_coord (Binary64.decimal (-19807482625) 7)
            834 OUTER_SHIFT)
     = Binary64.decimal (-1769999) 4
  /\ PrimFloat.eqb (Binary64.decimal (-1769998) 4)
                   (Binary64.decimal (-1769999) 4) = false.
Proof. vm_compute. repeat split. Qed.

(** The IEEE quotient and the rounding of the exact quotient agree. *)
Example ex_quotient_is_nearest :
  map (fun n => Binary64.quotient false n 10000)
      [1; 3; 7; 1769998; 1799137; 719999; -(1713669); 123456789]%Z
  = map (fun n => Binary64.nearest false (n # 10000))
        [1; 3; 7; 1769998; 1799137; 719999; -(1713669); 123456789]%Z.
Proof. vm_compute. reflexivity. Qed.

(** The latitude clamp on doubles, also at an infinite and at an undefined
    latitude. *)
Example ex_clamp_on_doubles :
  fst (svg_to_geographic 0 (-1)) = 72%float
  /\ fst (svg_to_geographic 0 1669) = (-72)%float
  /\ fst (svg_to_geographic 0 infinity) = (-72)%float
  /\ fst (svg_to_geographic 0 nan) = 72%float
  /\ svg_to_geographic 2085 834 = (neg_zero, zero).
Proof. vm_compute. repeat split. Qed.

(** C5 (amended): with INNER_SHIFT = -69.5 and OUTER_SHIFT = 2015.5, in
    exact arithmetic a point at raw x under INNER_SHIFT and the point at
    x + INNER_SHIFT - OUTER_SHIFT under OUTER_SHIFT have the same output
    longitude. *)
Theorem shift_equivalence (x y : Q) :
  Exact.INNER_SHIFT == - (695 # 10) /\ Exact.OUTER_SHIFT == 20155 # 10
  /\ snd (Exact.point_to_coord x y Exact.INNER_SHIFT)
     = snd (Exact.point_to_coord
              (x + Exact.INNER_SHIFT - Exact.OUTER_SHIFT) y
              Exact.OUTER_SHIFT).
Proof.
  split; [reflexivity | split; [reflexivity |]].
  rewrite !exact_point_to_coord_eq. cbn [snd].
  apply py_round_comp. unfold Exact.raw_lon.
  assert (E : x + Exact.INNER_SHIFT - Exact.OUTER_SHIFT + Exact.OUTER_SHIFT
              == x + Exact.INNER_SHIFT)
    by ring.
  rewrite E. reflexivity.
Qed.

End Transform.

(** ** Ranges, indexing and loops *)






Lemma py_range_bounds (start stop step i : Z) :
  (0 < step)%Z -> In i (py_range start stop step) ->
  (start <= i < stop)%Z.
Proof.
  intros Hs Hin. unfold py_range in Hin.
  apply in_map_iff in Hin. destruct Hin as (k & <- & Hk).
  apply in_seq in Hk.
  assert (Hq : (Z.of_nat k + 1 <= (stop - start + step - 1) / step)%Z) by lia.
  pose proof (Z.mul_div_le (stop - start + step - 1) step Hs) as Hm.
  nia.
Qed.

Lemma getitem_nth {A : Type} (l : list A) (i : Z) (x : A) :
  (0 <= i)%Z -> nth_error l (Z.to_nat i) = Some x -> getitem l i = Ok x.
Proof.
  intros Hi Hn. unfold getitem.
  destruct (Z.ltb_spec i 0); [lia |].
  destruct (Z.ltb_spec i 0); [lia |].
  rewrite Hn. reflexivity.
Qed.

Lemma getitem_ok {A : Type} (l : list A) (i : Z) :
  (0 <= i < len l)%Z -> exists x, getitem l i = Ok x.
Proof.
  intros Hi. unfold len in Hi.
  destruct (nth_error l (Z.to_nat i)) as [x |] eqn:E.
  - exists x. apply getitem_nth; [lia | exact E].
  - apply nth_error_None in E. lia.
Qed.



Lemma for_each_ok {S : Type} (idx : list Z) (body : Z -> S -> result S) :
  (forall i s, In i idx -> exists s', body i s = Ok s') ->
  forall s, exists s', for_each idx body s = Ok s'.
Proof.
  induction idx as [| i idx IH]; intros Hb s; cbn [for_each].
  - eauto.
  - destruct (Hb i s (or_introl eq_refl)) as (s1 & ->). cbn [bind].
    apply IH. intros j t Hj. apply Hb. right. exact Hj.
Qed.


(** ** The loop bodies *)

Section BuilderFacts.

Variable shift : float.

Ltac read_item coords i :=
  let x := fresh "x" in
  let E := fresh "E" in
  destruct (getitem_ok coords i) as (x & E); [lia |]; rewrite E; cbn [bind].

Lemma body_line_abs_appends : appends_one shift (body_line_abs shift) 2.
Proof.
  intros coords i pos seg H0 H1. unfold body_line_abs.
  read_item coords i. read_item coords (i + 1)%Z.
  do 3 eexists; split; reflexivity.
Qed.

Lemma body_line_rel_appends : appends_one shift (body_line_rel shift) 2.
Proof.
  intros coords i pos seg H0 H1. unfold body_line_rel.
  read_item coords i. read_item coords (i + 1)%Z.
  do 3 eexists; split; reflexivity.
Qed.

Lemma body_curve_abs_appends : appends_one shift (body_curve_abs shift) 6.
Proof.
  intros coords i pos seg H0 H1. unfold body_curve_abs.
  read_item coords i. read_item coords (i + 1)%Z.
  read_item coords (i + 2)%Z. read_item coords (i + 3)%Z.
  read_item coords (i + 4)%Z. read_item coords (i + 5)%Z.
  do 3 eexists; split; reflexivity.
Qed.

Lemma body_curve_rel_appends : appends_one shift (body_curve_rel shift) 6.
Proof.
  intros coords i pos seg H0 H1. unfold body_curve_rel.
  read_item coords i. read_item coords (i + 1)%Z.
  read_item coords (i + 2)%Z. read_item coords (i + 3)%Z.
  read_item coords (i + 4)%Z. read_item coords (i + 5)%Z.
  do 3 eexists; split; reflexivity.
Qed.

Lemma for_each_grows body g coords :
  appends_one shift body g ->
  forall idx,
    (forall i, In i idx -> (0 <= i)%Z /\ (i + g <= len coords)%Z) ->
    forall pos seg,
    exists pos' seg' new,
      for_each idx (body coords) (pos, seg) = Ok (pos', seg')
      /\ grows shift pos seg seg' new
      /\ List.length new = List.length idx
      /\ (idx = [] -> pos' = pos /\ seg' = seg).
Proof.
  intros Hb. induction idx as [| i idx IH]; intros Hin pos seg.
  - exists pos, seg, []. cbn [for_each]. split; [reflexivity |].
    split; [| auto].
    constructor; auto; try (rewrite app_nil_r; reflexivity).
    cbn. discriminate.
  - destruct (Hin i (or_introl eq_refl)) as (H0 & H1).
    destruct (Hb coords i pos seg H0 H1) as (pos1 & c & p & E & Hc).
    cbn [for_each]. rewrite E. cbn [bind].
    destruct (IH (fun j Hj => Hin j (or_intror Hj)) pos1
                 (set_current_point (append_cubic seg c) p))
      as (pos' & seg' & new & E' & G & L & _).
    exists pos', seg', (c :: new). split; [exact E' |].
    destruct G as [G1 G2 G3 G4 G5]. cbn in G1, G2, G3, G4.
    split; [| split; [cbn; lia | discriminate]].
    constructor.
    + rewrite G1, <- app_assoc. reflexivity.
    + exact G2.
    + exact G3.
    + intros _. apply G4. discriminate.
    + cbn. intros c' [= <-]. exact Hc.
Qed.

Lemma range_fits (n g i : Z) :
  (0 < g)%Z -> In i (py_range 0 (n - (g - 1)) g) -> (0 <= i)%Z /\ (i + g <= n)%Z.
Proof.
  intros Hg Hin. apply py_range_bounds in Hin; lia.
Qed.

End BuilderFacts.

(** ** The builder never raises *)

Section Totality.

Variable shift : float.

Lemma wf_init : wf init_builder.
Proof. intros seg H. discriminate H. Qed.

Lemma wf_open_segment (cur : option PathSegment) (pos : float * float) :
  (forall seg, cur = Some seg -> wf_seg seg) ->
  wf_seg (open_segment cur pos shift).
Proof.
  intros H. destruct cur as [seg |]; cbn.
  - apply H. reflexivity.
  - split; discriminate.
Qed.

Lemma draw_grows body g coords (st : Builder) :
  appends_one shift body g -> (0 < g)%Z ->
  exists pos' seg' new,
    draw shift st (py_range 0 (len coords - (g - 1)) g) (body coords)
    = Ok (mkBuilder (segments st) (Some seg') pos')
    /\ grows shift (current_pos st)
             (open_segment (current_segment st) (current_pos st) shift)
             seg' new
    /\ List.length new
       = List.length (py_range 0 (len coords - (g - 1)) g).
Proof.
  intros Hb Hg. unfold draw.
  destruct (for_each_grows shift body g coords Hb
              (py_range 0 (len coords - (g - 1)) g)
              (fun i Hi => range_fits (len coords) g i Hg Hi)
              (current_pos st)
              (open_segment (current_segment st) (current_pos st) shift))
    as (pos' & seg' & new & E & G & L & _).
  rewrite E. cbn [bind]. exists pos', seg', new. auto.
Qed.

Lemma step_M_total (st : Builder) (coords : list float) :
  exists pos seg,
    step_M shift st coords
    = Ok (if (2 <=? len coords)%Z
          then mkBuilder (flush (segments st) (current_segment st)) (Some seg) pos
          else st)
    /\ wf_seg seg.
Proof.
  unfold step_M. destruct (Z.leb_spec 2 (len coords)) as [H | H].
  - destruct (getitem_ok coords 0) as (x & ->); [lia |].
    destruct (getitem_ok coords 1) as (y & ->); [lia |].
    cbn [bind].
    destruct (for_each_grows shift (body_line_abs shift) 2 coords
                (body_line_abs_appends shift)
                (py_range 2 (len coords - 1) 2)) with
      (pos := (x, y)) (seg := set_points new_PathSegment (coord_of shift (x, y)))
      as (pos' & seg' & new & E & G & _).
    { intros i Hi. apply py_range_bounds in Hi; lia. }
    rewrite E. cbn [bind]. exists pos', seg'. split; [reflexivity |].
    destruct G as [_ _ G3 G4 _]. split.
    + rewrite G3. discriminate.
    + apply G4. discriminate.
  - exists (0, 0), (set_points new_PathSegment (0, 0)).
    split; [reflexivity | split; discriminate].
Qed.

Lemma step_m_eq (st : Builder) (coords : list float) :
  (2 <= len coords)%Z ->
  exists dx dy,
    getitem coords 0 = Ok dx /\ getitem coords 1 = Ok dy
    /\ step_m shift st coords
       = Ok (mkBuilder (flush (segments st) (current_segment st))
               (Some (set_points new_PathSegment
                        (coord_of shift (fst (current_pos st) + dx,
                                         snd (current_pos st) + dy))))
               (fst (current_pos st) + dx, snd (current_pos st) + dy)).
Proof.
  intros H. unfold step_m.
  destruct (Z.leb_spec 2 (len coords)) as [_ | H']; [| lia].
  destruct (getitem_ok coords 0) as (x & Ex); [lia |].
  destruct (getitem_ok coords 1) as (y & Ey); [lia |].
  rewrite Ex, Ey. cbn [bind]. exists x, y. auto.
Qed.

Lemma step_Z_eq (st : Builder) :
  step_Z st
  = Ok match current_segment st with
       | Some seg =>
           match start_point seg, current_point seg with
           | Some start, Some end_ =>
               mkBuilder (segments st)
                 (Some (set_closed
                          (if sqrt_gt (dist_sq start end_) CLOSE_DIST
                           then append_cubic seg (line_cubic end_ start)
                           else seg)))
                 (current_pos st)
           | _, _ => st
           end
       | None => st
       end.
Proof.
  unfold step_Z. destruct (current_segment st) as [seg |]; [| reflexivity].
  destruct (start_point seg), (current_point seg); reflexivity.
Qed.

Lemma step_classify (st : Builder) (cmd : ascii) (coords : list float) :
  step shift st (cmd, coords)
  = match classify cmd with
    | OpM => step_M shift st coords
    | Opm => step_m shift st coords
    | OpC => draw shift st (py_range 0 (len coords - 5) 6)
                  (body_curve_abs shift coords)
    | Opc => draw shift st (py_range 0 (len coords - 5) 6)
                  (body_curve_rel shift coords)
    | OpL => draw shift st (py_range 0 (len coords - 1) 2)
                  (body_line_abs shift coords)
    | Opl => draw shift st (py_range 0 (len coords - 1) 2)
                  (body_line_rel shift coords)
    | OpZ => step_Z st
    | OpOther => Ok st
    end.
Proof.
  unfold step, classify.
  repeat match goal with
         | |- context [if ?b then _ else _] => destruct b; try reflexivity
         end.
Qed.

Ltac draw_case st lem app :=
  let p := fresh "p" in
  let s := fresh "s" in
  let n := fresh "n" in
  let E := fresh "E" in
  let G := fresh "G" in
  destruct lem as (p & s & n & E & G & _); [app | lia |];
  cbn [Z.sub Z.add Z.opp Z.pos_sub Pos.pred_double] in E; rewrite E;
  eexists; split; [reflexivity |];
  let W := fresh "W" in
  let s' := fresh "s" in
  let H := fresh "H" in
  intros W s' H; injection H as <-;
  destruct G as [_ _ G3 G4 _];
  pose proof (wf_open_segment (current_segment st) (current_pos st) W)
    as [Wa Wb];
  split; [rewrite G3; exact Wa | apply G4; exact Wb].

Lemma step_total_wf (st : Builder) (c : Command) :
  exists st', step shift st c = Ok st' /\ (wf st -> wf st').
Proof.
  destruct c as (cmd, coords). rewrite step_classify.
  destruct (classify cmd).
  - destruct (step_M_total st coords) as (pos & seg & E & Ws). rewrite E.
    eexists; split; [reflexivity |].
    destruct (2 <=? len coords)%Z; [| auto].
    intros _ s [= <-]. exact Ws.
  - unfold step_m. destruct (Z.leb_spec 2 (len coords)) as [H | H].
    + destruct (step_m_eq st coords H) as (dx & dy & -> & -> & _).
      cbn [bind]. eexists; split; [reflexivity |].
      intros _ s [= <-]. split; discriminate.
    + eexists; split; [reflexivity | auto].
  - draw_case st (draw_grows (body_curve_abs shift) 6 coords st)
              ltac:(apply body_curve_abs_appends).
  - draw_case st (draw_grows (body_curve_rel shift) 6 coords st)
              ltac:(apply body_curve_rel_appends).
  - draw_case st (draw_grows (body_line_abs shift) 2 coords st)
              ltac:(apply body_line_abs_appends).
  - draw_case st (draw_grows (body_line_rel shift) 2 coords st)
              ltac:(apply body_line_rel_appends).
  - rewrite step_Z_eq. eexists; split; [reflexivity |]. intros W.
    destruct (current_segment st) as [seg |] eqn:Ec; [| exact W].
    destruct (start_point seg) as [start |] eqn:Es; [| exact W].
    destruct (current_point seg) as [end_ |] eqn:Ee; [| exact W].
    intros s [= <-].
    destruct (sqrt_gt (dist_sq start end_) CLOSE_DIST); cbn;
      split; cbn; rewrite ?Es, ?Ee; discriminate.
  - eexists; split; [reflexivity | auto].
Qed.

Lemma run_total_wf (commands : list Command) :
  forall st, exists st', run shift st commands = Ok st' /\ (wf st -> wf st').
Proof.
  induction commands as [| c rest IH]; intros st; cbn [run].
  - eauto.
  - destruct (step_total_wf st c) as (st1 & -> & W1). cbn [bind].
    destruct (IH st1) as (st2 & E & W2). exists st2. auto.
Qed.

(** Every state the builder reaches from its initial state holds a segment
    with both points set, if it holds one at all. *)
Lemma reachable_wf (commands : list Command) (st : Builder) :
  run shift init_builder commands = Ok st -> wf st.
Proof.
  intros H.
  destruct (run_total_wf commands init_builder) as (st' & E & W).
  rewrite E in H. injection H as <-. apply W, wf_init.
Qed.

End Totality.

(** ** The parser never raises *)

Section ParserTotality.

Lemma float_run_snoc (tok : string) (c : ascii) :
  forall st, float_run st (snoc tok c) = float_step (float_run st tok) c.
Proof.
  induction tok as [| a tok IH]; intros st; cbn; [reflexivity | apply IH].
Qed.

Lemma scan_start_ok (c : ascii) : state_ok (scan_start c).
Proof.
  unfold scan_start. destruct (is_digit c) eqn:D.
  - cbn [state_ok float_run float_step]. rewrite D. eauto.
  - destruct (Ascii.eqb c "-"); exact I.
Qed.

Lemma scan_end_literal (st : scan_state) :
  state_ok st -> Forall literal (scan_end st).
Proof.
  destruct st as [| | tok | tok]; cbn; intros H; auto.
  - destruct H as (neg & m & H). repeat constructor.
    unfold literal, py_float. rewrite H. eauto.
  - destruct H as (neg & m & k & H). repeat constructor.
    unfold literal, py_float. rewrite H. eauto.
Qed.

Lemma scan_step_ok (st : scan_state) (c : ascii) :
  state_ok st ->
  state_ok (fst (scan_step st c)) /\ Forall literal (snd (scan_step st c)).
Proof.
  intros H. destruct st as [| | tok | tok]; cbn [scan_step].
  - split; [apply scan_start_ok | constructor].
  - destruct (is_digit c) eqn:D; cbn [fst snd].
    + split; [| constructor]. cbn [state_ok float_run float_step].
      change (is_digit "-") with false. change (Ascii.eqb "-" "-") with true.
      cbn [float_step]. rewrite D. eauto.
    + split; [apply scan_start_ok | constructor].
  - destruct H as (neg & m & H).
    destruct (is_digit c) eqn:D; cbn [fst snd].
    + split; [| constructor]. cbn [state_ok].
      rewrite float_run_snoc, H. cbn [float_step]. rewrite D. eauto.
    + destruct (Ascii.eqb c ".") eqn:P; cbn [fst snd].
      * split; [| constructor]. cbn [state_ok].
        rewrite float_run_snoc, H. cbn [float_step]. rewrite D, P. eauto.
      * split; [apply scan_start_ok |].
        apply (scan_end_literal (InInt tok)). cbn [state_ok]. eauto.
  - destruct H as (neg & m & k & H).
    destruct (is_digit c) eqn:D; cbn [fst snd].
    + split; [| constructor]. cbn [state_ok].
      rewrite float_run_snoc, H. cbn [float_step]. rewrite D. eauto.
    + split; [apply scan_start_ok |].
      apply (scan_end_literal (InFrac tok)). cbn [state_ok]. eauto.
Qed.

Lemma scan_literals (s : string) :
  forall st, state_ok st -> Forall literal (scan st s).
Proof.
  induction s as [| c s IH]; intros st H; cbn [scan].
  - apply scan_end_literal. exact H.
  - destruct (scan_step_ok st c H) as (H1 & H2).
    destruct (scan_step st c) as (st', out). cbn [fst snd] in H1, H2.
    apply Forall_app. split; [exact H2 | apply IH; exact H1].
Qed.

Lemma map_result_ok {A B : Type} (f : A -> result B) (l : list A) :
  Forall (fun x => exists y, f x = Ok y) l -> exists ys, map_result f l = Ok ys.
Proof.
  induction 1 as [| x l (y & Hy) _ (ys & Hys)]; cbn [map_result].
  - eauto.
  - rewrite Hy. cbn [bind]. rewrite Hys. cbn [bind]. eauto.
Qed.

Lemma parse_path_commands_total (d : string) :
  exists commands, parse_path_commands d = Ok commands.
Proof.
  unfold parse_path_commands. apply map_result_ok.
  apply Forall_forall. intros (cmd, group2) _.
  destruct (negb (String.eqb (strip group2) EmptyString)).
  - destruct (map_result_ok py_float (findall (strip group2))) as (qs & ->).
    + apply scan_literals. exact I.
    + cbn [bind]. eauto.
  - cbn [bind]. eauto.
Qed.

End ParserTotality.

(** ** Emitted segments *)




(** ** Closepath *)





Example st_after_line_reached :
  run 0 init_builder [("M"%char, [0; 0]); ("L"%char, [100; 0])]
  = Ok st_after_line.
Proof. vm_compute. reflexivity. Qed.

(** ** Opcodes without a transition *)

(** C8: each of the letters S, s, Q, q, T, t, A, a, H, h, V, v is a command
    letter for the tokenizer, and processing a command with that letter
    returns the builder state unchanged (cursor, current segment with its
    curves, points and closed flag, and the list of finished segments); on
    its own such a command produces no path. *)
Theorem unhandled_opcode_is_noop (shift : float) (st : Builder) (cmd : ascii)
  (coords : list float) :
  In cmd UNHANDLED ->
  is_command cmd = true
  /\ step shift st (cmd, coords) = Ok st
  /\ build_segments [(cmd, coords)] shift = Ok [].
Proof.
  intros H. unfold UNHANDLED in H. cbn [In] in H.
  repeat (destruct H as [<- | H]; [repeat split |]).
  destruct H.
Qed.

Lemma unhandled_opcode_witness :
  is_command "Q" = true
  /\ step 0 st_after_line ("Q"%char, [1; 2; 3; 4]) = Ok st_after_line
  /\ build_segments [("Q"%char, [1; 2; 3; 4])] 0 = Ok [].
Proof.
  apply (unhandled_opcode_is_noop 0 st_after_line "Q"%char [1; 2; 3; 4]).
  cbn. tauto.
Defined.

(** ** Incomplete groups of coordinates *)

Section Trailing.

Variable shift : float.











End Trailing.



(** ** Straight segments *)

Section Lines.

Variable shift : float.











End Lines.

(** ** Moveto *)


Example ex_moveto_extra_pairs :
  show (extract_path_segments "M0,0 10,0 10,10 5" 0) = [(2%nat, false)]
  /\ show (extract_path_segments "m0,0 10,0 10,10 5" 0) = [].
Proof. vm_compute. split; reflexivity. Qed.

(** ** Drawing after a closepath *)

Lemma py_range_groups (n g : Z) :
  List.length (py_range 0 (n - (g - 1)) g) = Z.to_nat (n / g).
Proof.
  unfold py_range. rewrite length_map, length_seq.
  f_equal. f_equal. lia.
Qed.



(** After "M0,0 L100,0 Z L50,0" the third cubic starts at the transformed
    (100, 0), not at the start point the close went back to. *)
Example ex_draw_after_close :
  match extract_path_segments "M0,0L100,0ZL50,0" 0 with
  | Ok [p] =>
      map c_p0 (cubicSegments p)
      = [(72, -180); (72, decimal (-1713669) 4); (72, decimal (-1713669) 4)]
      /\ isClosed p = true
  | _ => False
  end.
Proof. vm_compute. split; reflexivity. Qed.

(** ** Lines against curves with interpolated control points *)

(** The line from raw (0, 0) to (3, 0) and the curve with control points at
    raw (1, 0) and (2, 0), the interpolants of the two end points: the first
    control point of the line has a longitude between -179.91367 and
    -179.91366 (it is -180 + 0.259 / 3), that of the curve the rounded
    -179.9137, so the two cubics differ. *)
Lemma line_and_curve_differ :
  interpolated_curve (0, 0) 3 0 = [1; 0; 2; 0; 3; 0]
  /\ exists qL qC,
    last_cubic (step 0 init_builder ("L"%char, [3; 0])) = Some qL
    /\ last_cubic (step 0 init_builder
                     ("C"%char, interpolated_curve (0, 0) 3 0)) = Some qC
    /\ PrimFloat.ltb (decimal (-17991367) 5) (snd (c_p1 qL)) = true
    /\ PrimFloat.ltb (snd (c_p1 qL)) (decimal (-17991366) 5) = true
    /\ snd (c_p1 qC) = decimal (-1799137) 4
    /\ PrimFloat.eqb (snd (c_p1 qL)) (snd (c_p1 qC)) = false
    /\ qL <> qC.
Proof.
  split; [vm_compute; reflexivity |].
  eexists. eexists.
  split; [vm_compute; reflexivity |].
  split; [vm_compute; reflexivity |].
  split; [vm_compute; reflexivity |].
  split; [vm_compute; reflexivity |].
  split; [vm_compute; reflexivity |].
  split; [vm_compute; reflexivity |].
  intros H.
  apply (f_equal (fun q => PrimFloat.eqb (snd (c_p1 q))
                             (decimal (-1799137) 4))) in H.
  vm_compute in H. discriminate H.
Qed.

(** The same on whole path strings, and in exact arithmetic: -539741/3000
    against -1799137/10000. *)
Example ex_line_and_curve_strings :
  match extract_path_segments "M0,0L3,0" 0,
        extract_path_segments "M0,0C1,0,2,0,3,0" 0 with
  | Ok [pL], Ok [pC] =>
      map (fun q => PrimFloat.eqb (snd (c_p1 q)) (decimal (-1799137) 4))
        (cubicSegments pL) = [false]
      /\ map c_p1 (cubicSegments pC) = [(72, decimal (-1799137) 4)]
  | _, _ => False
  end.
Proof. vm_compute. split; reflexivity. Qed.

Example ex_line_and_curve_exact :
  (snd (Exact.point_to_coord 0 0 0)
   + (snd (Exact.point_to_coord 3 0 0) - snd (Exact.point_to_coord 0 0 0)) / 3
   == - (539741 # 3000))%Q
  /\ (snd (Exact.point_to_coord 1 0 0) == - (1799137 # 10000))%Q.
Proof. vm_compute. split; reflexivity. Qed.

(** C1 (amended): from any state, the cubic appended by [L x3 y3] and the
    cubic appended by the C command with the raw 1/3 and 2/3 interpolants as
    control points have the same start point and the same end point, and
    leave the same cursor.  The control points of the L cubic are the 1/3
    and 2/3 interpolants of those two transformed end points; the control
    points of the C cubic are the transformed raw interpolants. *)
Theorem line_and_curve_share_endpoints (shift : float) (st : Builder) (x3 y3 : float) :
  let pos := current_pos st in
  let seg := open_segment (current_segment st) pos shift in
  let p0 := point_to_coord (fst pos) (snd pos) shift in
  let p3 := point_to_coord x3 y3 shift in
  exists qL qC,
    step shift st ("L"%char, [x3; y3])
    = Ok (mkBuilder (segments st)
            (Some (set_current_point (append_cubic seg qL) p3)) (x3, y3))
    /\ step shift st ("C"%char, interpolated_curve pos x3 y3)
       = Ok (mkBuilder (segments st)
               (Some (set_current_point (append_cubic seg qC) p3)) (x3, y3))
    /\ c_p0 qL = p0 /\ c_p0 qC = p0
    /\ c_p3 qL = p3 /\ c_p3 qC = p3
    /\ qL = line_cubic p0 p3
    /\ c_p1 qC = point_to_coord (fst pos + (x3 - fst pos) / 3)
                                (snd pos + (y3 - snd pos) / 3) shift
    /\ c_p2 qC = point_to_coord (fst pos + (x3 - fst pos) * 2 / 3)
                                (snd pos + (y3 - snd pos) * 2 / 3) shift.
Proof.
  cbv zeta.
  exists (line_cubic (point_to_coord (fst (current_pos st)) (snd (current_pos st)) shift)
                     (point_to_coord x3 y3 shift)).
  eexists.
  split; [reflexivity |].
  split; [reflexivity |].
  repeat split.
Qed.

(** ** The closed line example *)


(** * Further properties of the builder *)

(** ** One command as a relation on states *)

Section Links.

Variable shift : float.

Ltac read_coord coords i :=
  let E := fresh "E" in
  destruct (getitem_ok coords i) as (? & E); [lia |]; rewrite E; cbn [bind].

Lemma body_line_abs_links : appends_link shift (body_line_abs shift) 2.
Proof.
  intros coords i pos seg H0 H1. unfold body_line_abs.
  read_coord coords i. read_coord coords (i + 1)%Z.
  eexists; eexists; split; [reflexivity | split; reflexivity].
Qed.

Lemma body_line_rel_links : appends_link shift (body_line_rel shift) 2.
Proof.
  intros coords i pos seg H0 H1. unfold body_line_rel.
  read_coord coords i. read_coord coords (i + 1)%Z.
  eexists; eexists; split; [reflexivity | split; reflexivity].
Qed.

Lemma body_curve_abs_links : appends_link shift (body_curve_abs shift) 6.
Proof.
  intros coords i pos seg H0 H1. unfold body_curve_abs.
  read_coord coords i. read_coord coords (i + 1)%Z.
  read_coord coords (i + 2)%Z. read_coord coords (i + 3)%Z.
  read_coord coords (i + 4)%Z. read_coord coords (i + 5)%Z.
  eexists (_, _); eexists; split; [reflexivity | split; reflexivity].
Qed.

Lemma body_curve_rel_links : appends_link shift (body_curve_rel shift) 6.
Proof.
  intros coords i pos seg H0 H1. unfold body_curve_rel.
  read_coord coords i. read_coord coords (i + 1)%Z.
  read_coord coords (i + 2)%Z. read_coord coords (i + 3)%Z.
  read_coord coords (i + 4)%Z. read_coord coords (i + 5)%Z.
  eexists (_, _); eexists; split; [reflexivity | split; reflexivity].
Qed.

Lemma for_each_extends body g coords :
  appends_link shift body g ->
  forall idx,
    (forall i, In i idx -> (0 <= i)%Z /\ (i + g <= len coords)%Z) ->
    forall pos seg,
    exists pos' seg' new,
      for_each idx (body coords) (pos, seg) = Ok (pos', seg')
      /\ extends shift pos seg new pos' seg'
      /\ List.length new = List.length idx.
Proof.
  intros Hb. induction idx as [| i idx IH]; intros Hin pos seg.
  - exists pos, seg, []. cbn [for_each].
    split; [reflexivity | split; [constructor | reflexivity]].
  - destruct (Hin i (or_introl eq_refl)) as (H0 & H1).
    destruct (Hb coords i pos seg H0 H1) as (pos1 & c & E & Hc0 & Hc3).
    cbn [for_each]. rewrite E. cbn [bind].
    destruct (IH (fun j Hj => Hin j (or_intror Hj)) pos1
                 (set_current_point (append_cubic seg c) (coord_of shift pos1)))
      as (pos' & seg' & new & E' & X & L).
    exists pos', seg', (c :: new). split; [exact E' |].
    split; [| cbn; lia].
    apply (extends_cons shift pos pos1 pos' seg seg' c new Hc0 Hc3 X).
Qed.

Lemma py_range_length (start stop step : Z) :
  List.length (py_range start stop step)
  = Z.to_nat ((stop - start + step - 1) / step).
Proof. unfold py_range. rewrite length_map, length_seq. reflexivity. Qed.

Lemma classify_spec (cmd : ascii) :
  match classify cmd with
  | OpM => cmd = "M"%char
  | Opm => cmd = "m"%char
  | OpC => cmd = "C"%char
  | Opc => cmd = "c"%char
  | OpL => cmd = "L"%char
  | Opl => cmd = "l"%char
  | OpZ => is_closepath cmd
  | OpOther => ~ is_closepath cmd /\ ~ In cmd DRAW_LETTERS
               /\ cmd <> "M"%char /\ cmd <> "m"%char
  end.
Proof.
  unfold classify, is_closepath, DRAW_LETTERS.
  destruct (Ascii.eqb_spec cmd "M"); [assumption |].
  destruct (Ascii.eqb_spec cmd "m"); [assumption |].
  destruct (Ascii.eqb_spec cmd "C"); [assumption |].
  destruct (Ascii.eqb_spec cmd "c"); [assumption |].
  destruct (Ascii.eqb_spec cmd "L"); [assumption |].
  destruct (Ascii.eqb_spec cmd "l"); [assumption |].
  destruct (Ascii.eqb_spec cmd "Z"); [left; assumption |].
  destruct (Ascii.eqb_spec cmd "z"); [right; assumption |].
  cbn [orb In]. intuition congruence.
Qed.

Lemma draw_extends body g coords (st : Builder) :
  appends_link shift body g -> (0 < g)%Z ->
  exists pos' seg' new,
    draw shift st (py_range 0 (len coords - (g - 1)) g) (body coords)
    = Ok (mkBuilder (segments st) (Some seg') pos')
    /\ extends shift (current_pos st)
         (open_segment (current_segment st) (current_pos st) shift)
         new pos' seg'
    /\ List.length new = Z.to_nat (len coords / g).
Proof.
  intros Hb Hg. unfold draw.
  destruct (for_each_extends body g coords Hb
              (py_range 0 (len coords - (g - 1)) g)
              (fun i Hi => range_fits (len coords) g i Hg Hi)
              (current_pos st)
              (open_segment (current_segment st) (current_pos st) shift))
    as (pos' & seg' & new & E & X & L).
  rewrite E. cbn [bind]. exists pos', seg', new.
  split; [reflexivity | split; [exact X |]].
  rewrite L. apply py_range_groups.
Qed.

(** Every command returns a state, related to the old one by [step_rel]. *)
Lemma step_cases (st : Builder) (cmd : ascii) (coords : list float) :
  exists st',
    step shift st (cmd, coords) = Ok st' /\ step_rel shift cmd coords st st'.
Proof.
  rewrite step_classify. pose proof (classify_spec cmd) as Hc.
  destruct (classify cmd) eqn:Ec.
  - unfold step_M. destruct (Z.leb_spec 2 (len coords)) as [H | H].
    + destruct (getitem_ok coords 0) as (x & ->); [lia |].
      destruct (getitem_ok coords 1) as (y & ->); [lia |].
      cbn [bind].
      destruct (for_each_extends (body_line_abs shift) 2 coords
                  body_line_abs_links (py_range 2 (len coords - 1) 2))
        with (pos := (x, y))
             (seg := set_points new_PathSegment (coord_of shift (x, y)))
        as (pos' & seg' & new & E & X & L).
      { intros i Hi. apply py_range_bounds in Hi; lia. }
      rewrite E. cbn [bind]. eexists; split; [reflexivity |].
      apply (step_move shift cmd coords st (x, y) pos' seg' new);
        [left; exact Ec | exact X |].
      rewrite L, py_range_length. unfold groups. rewrite Ec.
      f_equal. f_equal. lia.
    + eexists; split; [reflexivity |]. apply step_same.
      unfold groups. rewrite Ec.
      assert ((len coords - 2) / 2 < 0)%Z
        by (apply Z.div_lt_upper_bound; lia).
      lia.
  - unfold step_m. destruct (Z.leb_spec 2 (len coords)) as [H | H].
    + destruct (getitem_ok coords 0) as (dx & ->); [lia |].
      destruct (getitem_ok coords 1) as (dy & ->); [lia |].
      cbn [bind]. eexists; split; [reflexivity |].
      apply (step_move shift cmd coords st
               (fst (current_pos st) + dx, snd (current_pos st) + dy)
               _ _ []);
        [right; exact Ec | constructor |].
      unfold groups. rewrite Ec. reflexivity.
    + eexists; split; [reflexivity |]. apply step_same.
      unfold groups. rewrite Ec. reflexivity.
  - destruct (draw_extends (body_curve_abs shift) 6 coords st
                body_curve_abs_links) as (pos' & seg' & new & E & X & L);
      [lia |].
    eexists; split; [exact E |].
    apply (step_draw shift cmd coords st pos' seg' new);
      [subst cmd; cbn; tauto | exact X |].
    unfold groups. rewrite Ec. exact L.
  - destruct (draw_extends (body_curve_rel shift) 6 coords st
                body_curve_rel_links) as (pos' & seg' & new & E & X & L);
      [lia |].
    eexists; split; [exact E |].
    apply (step_draw shift cmd coords st pos' seg' new);
      [subst cmd; cbn; tauto | exact X |].
    unfold groups. rewrite Ec. exact L.
  - destruct (draw_extends (body_line_abs shift) 2 coords st
                body_line_abs_links) as (pos' & seg' & new & E & X & L);
      [lia |].
    eexists; split; [exact E |].
    apply (step_draw shift cmd coords st pos' seg' new);
      [subst cmd; cbn; tauto | exact X |].
    unfold groups. rewrite Ec. exact L.
  - destruct (draw_extends (body_line_rel shift) 2 coords st
                body_line_rel_links) as (pos' & seg' & new & E & X & L);
      [lia |].
    eexists; split; [exact E |].
    apply (step_draw shift cmd coords st pos' seg' new);
      [subst cmd; cbn; tauto | exact X |].
    unfold groups. rewrite Ec. exact L.
  - rewrite step_Z_eq. eexists; split; [reflexivity |].
    destruct (current_segment st) as [seg |] eqn:Es;
      [| apply step_same; unfold groups; rewrite Ec; reflexivity].
    destruct (start_point seg) as [start |] eqn:Ea;
      [| apply step_same; unfold groups; rewrite Ec; reflexivity].
    destruct (current_point seg) as [end_ |] eqn:Eb;
      [| apply step_same; unfold groups; rewrite Ec; reflexivity].
    apply (step_close shift cmd coords st seg start end_ Hc Es Ea Eb).
  - eexists; split; [reflexivity |]. apply step_same.
    unfold groups. rewrite Ec. reflexivity.
Qed.

(** A property of states kept by each command of a list holds after the
    whole list. *)
Lemma run_invariant (P : Builder -> Prop) (commands : list Command) :
  (forall cmd coords st st',
      In (cmd, coords) commands ->
      step_rel shift cmd coords st st' -> P st -> P st') ->
  forall st, P st -> exists st', run shift st commands = Ok st' /\ P st'.
Proof.
  induction commands as [| (cmd, coords) rest IH]; intros Hstep st HP;
    cbn [run].
  - eauto.
  - destruct (step_cases st cmd coords) as (st1 & -> & R). cbn [bind].
    apply IH.
    + intros cmd' coords' s s' Hin. apply Hstep. right. exact Hin.
    + apply (Hstep cmd coords st st1 (or_introl eq_refl) R HP).
Qed.

(** ** What appended cubics keep *)

Lemma coord_of_is_output (pos : float * float) :
  is_output shift (coord_of shift pos).
Proof. exists (fst pos), (snd pos). reflexivity. Qed.



Lemma extends_facts pos seg new pos' seg' :
  extends shift pos seg new pos' seg' ->
  cubic_segments seg' = cubic_segments seg ++ new
  /\ is_closed seg' = is_closed seg
  /\ start_point seg' = start_point seg
  /\ (current_point seg = Some (coord_of shift pos) ->
      current_point seg' = Some (coord_of shift pos'))
  /\ chained (coord_of shift pos) new (coord_of shift pos')
  /\ Forall (ends_are_outputs shift) new.
Proof.
  induction 1 as [pos seg | pos pos1 pos' seg seg' c new H0 H3 X IH].
  - rewrite app_nil_r. repeat split; auto.
  - destruct IH as (I1 & I2 & I3 & I4 & I5 & I6). cbn in I1, I2, I3, I4.
    split; [rewrite I1, <- app_assoc; reflexivity |].
    split; [exact I2 |]. split; [exact I3 |].
    split; [intros _; apply I4; reflexivity |].
    split.
    + cbn. split; [exact H0 | rewrite H3; exact I5].
    + constructor; [| exact I6].
      split; [rewrite H0 | rewrite H3]; apply coord_of_is_output.
Qed.




Lemma Forall_flush (P : PathSegment -> Prop) segs cur :
  Forall P segs ->
  match cur with Some seg => P seg | None => True end ->
  Forall P (flush segs cur).
Proof.
  intros Hs Hc. unfold flush. destruct cur as [seg |]; [| exact Hs].
  destruct (0 <? len (cubic_segments seg))%Z; [| exact Hs].
  apply Forall_app. split; [exact Hs | constructor; [exact Hc | constructor]].
Qed.




End Links.

(** ** The commands of a path string *)

Section Commands.

Lemma finditer_letters (d : string) :
  map fst (snd (finditer d)) = filter is_command (chars d).
Proof.
  induction d as [| c d IH]; [reflexivity |].
  cbn [finditer chars list_ascii_of_string filter].
  destruct (finditer d) as (run, matches). cbn [snd] in IH.
  destruct (is_command c); cbn [snd map fst]; [f_equal |]; exact IH.
Qed.

Lemma map_result_fst {A B C : Type} (f : A * B -> result (A * C))
  (l : list (A * B)) :
  (forall m y, f m = Ok y -> fst y = fst m) ->
  forall ys, map_result f l = Ok ys -> map fst ys = map fst l.
Proof.
  intros Hf. induction l as [| m l IH]; intros ys; cbn [map_result].
  - intros [= <-]. reflexivity.
  - destruct (f m) as [y | e] eqn:E; cbn [bind]; [| discriminate].
    destruct (map_result f l) as [ys' | e]; cbn [bind]; [| discriminate].
    intros [= <-]. cbn [map]. f_equal; [apply Hf; exact E | apply IH].
    reflexivity.
Qed.

Lemma map_result_app {A B : Type} (f : A -> result B) (l l' : list A)
  (ys ys' : list B) :
  map_result f l = Ok ys -> map_result f l' = Ok ys' ->
  map_result f (l ++ l') = Ok (ys ++ ys').
Proof.
  revert ys. induction l as [| a l IH]; intros ys; cbn [map_result app].
  - intros [= <-]. auto.
  - destruct (f a) as [y | e]; cbn [bind]; [| discriminate].
    destruct (map_result f l) as [zs | e]; cbn [bind]; [| discriminate].
    intros [= <-] H'. rewrite (IH zs eq_refl H'). reflexivity.
Qed.

Lemma parse_letters (d : string) (commands : list Command) :
  parse_path_commands d = Ok commands ->
  map fst commands = filter is_command (chars d).
Proof.
  unfold parse_path_commands. intros H.
  rewrite <- finditer_letters.
  refine (map_result_fst _ _ _ _ H).
  intros (cmd, group2) y.
  destruct (if negb (String.eqb (strip group2) EmptyString)
            then map_result py_float (findall (strip group2))
            else Ok []) as [coords | e]; cbn [bind]; [| discriminate].
  intros [= <-]. reflexivity.
Qed.

Lemma finditer_app (d1 d2 : string) (c : ascii) :
  is_command c = true ->
  finditer (String.append d1 (String c d2))
  = (fst (finditer d1),
     snd (finditer d1) ++ snd (finditer (String c d2))).
Proof.
  intros Hc. remember (snd (finditer (String c d2))) as tail eqn:Et.
  induction d1 as [| a d1 IH].
  - subst tail. cbn [String.append finditer].
    destruct (finditer d2) as (run, matches). rewrite Hc. reflexivity.
  - cbn [String.append finditer]. rewrite IH.
    destruct (finditer d1) as (run, matches). cbn [fst snd].
    destruct (is_command a); reflexivity.
Qed.

Lemma finditer_leading (pre d : string) :
  Forall (fun c => is_command c = false) (chars pre) ->
  snd (finditer (String.append pre d)) = snd (finditer d).
Proof.
  induction pre as [| a pre IH]; intros H; [reflexivity |].
  cbn [chars list_ascii_of_string] in H. inversion H as [| ? ? Ha Hp]; subst.
  cbn [String.append finditer]. specialize (IH Hp).
  destruct (finditer (String.append pre d)) as (run, matches).
  rewrite Ha. exact IH.
Qed.

Lemma append_empty (s : string) : String.append s EmptyString = s.
Proof. induction s as [| a s IH]; cbn; [| rewrite IH]; reflexivity. Qed.

Lemma parse_path_commands_app (d1 d2 : string) (c : ascii) :
  is_command c = true ->
  exists l1 l2,
    parse_path_commands d1 = Ok l1
    /\ parse_path_commands (String c d2) = Ok l2
    /\ parse_path_commands (String.append d1 (String c d2)) = Ok (l1 ++ l2).
Proof.
  intros Hc.
  destruct (parse_path_commands_total d1) as (l1 & E1).
  destruct (parse_path_commands_total (String c d2)) as (l2 & E2).
  exists l1, l2. split; [exact E1 | split; [exact E2 |]].
  unfold parse_path_commands in *. rewrite (finditer_app d1 d2 c Hc).
  cbn [snd]. apply map_result_app; assumption.
Qed.

End Commands.

(** X1: One command per command letter of the string, in the order of the
    letters: the parser returns a command list for every string, and the
    letters of the commands are the command letters of the string. *)
Theorem commands_are_the_letters (d : string) :
  exists commands,
    parse_path_commands d = Ok commands
    /\ map fst commands = filter is_command (chars d).
Proof.
  destruct (parse_path_commands_total d) as (commands & E).
  exists commands. split; [exact E | apply parse_letters; exact E].
Qed.

(** X2: Text before the first command letter is ignored: a string without
    command letters has no commands, and in front of another string it
    changes nothing. *)
Theorem leading_text_ignored (pre d : string) :
  Forall (fun c => is_command c = false) (chars pre) ->
  parse_path_commands pre = Ok []
  /\ parse_path_commands (String.append pre d) = parse_path_commands d.
Proof.
  intros H. unfold parse_path_commands. split.
  - pose proof (finditer_leading pre EmptyString H) as E.
    rewrite append_empty in E. rewrite E. reflexivity.
  - rewrite (finditer_leading pre d H). reflexivity.
Qed.

Lemma leading_text_ignored_witness :
  parse_path_commands " 12,-5 " = Ok []
  /\ parse_path_commands (String.append " 12,-5 " "M0,0L1,1")
     = parse_path_commands "M0,0L1,1".
Proof.
  apply (leading_text_ignored " 12,-5 " "M0,0L1,1").
  repeat constructor.
Defined.

(** X3: The commands of a string that continues with a command letter are the
    commands of the first part followed by those of the rest: a command's
    arguments end at the next command letter. *)
Theorem commands_concatenate (d1 d2 : string) (c : ascii) :
  is_command c = true ->
  exists l1 l2,
    parse_path_commands d1 = Ok l1
    /\ parse_path_commands (String c d2) = Ok l2
    /\ parse_path_commands (String.append d1 (String c d2)) = Ok (l1 ++ l2).
Proof. apply parse_path_commands_app. Qed.

Lemma commands_concatenate_witness :
  exists l1 l2,
    parse_path_commands "M0,0L5" = Ok l1
    /\ parse_path_commands "c1,2 3" = Ok l2
    /\ parse_path_commands (String.append "M0,0L5" "c1,2 3") = Ok (l1 ++ l2).
Proof.
  apply (commands_concatenate "M0,0L5" "1,2 3" "c"). reflexivity.
Defined.

(** ** Invariants of the emitted paths *)

Section Emitted.

Variable shift : float.

Lemma to_output_Forall (P : PathSegment -> Prop) (Q : PathDict -> Prop)
  (segs : list PathSegment) :
  (forall seg, P seg -> Q (path_dict seg)) ->
  Forall P segs -> Forall Q (to_output segs).
Proof.
  intros H Hs. unfold to_output. apply Forall_forall. intros p Hp.
  apply in_map_iff in Hp. destruct Hp as (seg & <- & Hf).
  apply filter_In in Hf. destruct Hf as (Hin & _).
  apply H. rewrite Forall_forall in Hs. apply Hs. exact Hin.
Qed.

(** What [extract_path_segments] returns, from the last state of the
    builder. *)
Lemma extract_from_state (P : Builder -> Prop) (path_data : string) :
  (forall commands,
      parse_path_commands path_data = Ok commands ->
      exists st, run shift init_builder commands = Ok st /\ P st) ->
  exists st,
    P st
    /\ extract_path_segments path_data shift
       = Ok (to_output (flush (segments st) (current_segment st))).
Proof.
  intros H. unfold extract_path_segments, build_segments.
  destruct (parse_path_commands_total path_data) as (commands & E).
  destruct (H commands E) as (st & R & HP).
  exists st. split; [exact HP |].
  rewrite E. cbn [bind]. rewrite R. reflexivity.
Qed.



Lemma all_open_step cmd coords st st' :
  ~ is_closepath cmd ->
  step_rel shift cmd coords st st' -> all_open st -> all_open st'.
Proof.
  intros Hn R (Hc & Hs).
  destruct R as [_ | q pos' seg' new _ X _ | pos' seg' new _ X _
                 | seg start end_ Hz _ _ _].
  - split; assumption.
  - destruct (extends_facts _ _ _ _ _ _ X) as (_ & I2 & _).
    split; cbn [current_segment segments]; [exact I2 |].
    apply Forall_flush; assumption.
  - destruct (extends_facts _ _ _ _ _ _ X) as (_ & I2 & _).
    split; cbn [current_segment segments]; [| exact Hs].
    rewrite I2. destruct (current_segment st); [exact Hc | reflexivity].
  - contradiction.
Qed.


Lemma letter_in_string (path_data : string) (commands : list Command)
  (cmd : ascii) (coords : list float) :
  parse_path_commands path_data = Ok commands ->
  In (cmd, coords) commands -> In cmd (chars path_data).
Proof.
  intros E Hin. apply parse_letters in E.
  assert (K : In cmd (map fst commands))
    by (apply in_map_iff; exists (cmd, coords); auto).
  rewrite E in K. apply filter_In in K. apply K.
Qed.

(** ** Counting cubics *)








(** ** Segments in front of a state *)









End Emitted.

(** ** Separators between numbers *)

Section Separators.

Lemma scan_step_separator (st : scan_state) (c : ascii) :
  is_separator c = true -> scan_step st c = (Idle, scan_end st).
Proof.
  unfold is_separator. intros H.
  apply andb_prop in H. destruct H as (H & Hp).
  apply andb_prop in H. destruct H as (Hd & Hm).
  apply negb_true_iff in Hd, Hm, Hp.
  destruct st; cbn [scan_step scan_end]; unfold scan_start;
    rewrite ?Hd, ?Hm, ?Hp; reflexivity.
Qed.

Lemma scan_separator (s1 s2 : string) (sep : ascii) :
  is_separator sep = true ->
  forall st,
    scan st (String.append s1 (String sep s2)) = scan st s1 ++ scan Idle s2.
Proof.
  intros H. induction s1 as [| c s1 IH]; intros st.
  - cbn [String.append scan]. rewrite (scan_step_separator st sep H).
    reflexivity.
  - cbn [String.append scan]. destruct (scan_step st c) as (st', out).
    rewrite IH, app_assoc. reflexivity.
Qed.

Lemma is_space_separator (c : ascii) :
  is_space c = true -> is_separator c = true.
Proof.
  destruct c as [[] [] [] [] [] [] [] []]; intros H;
    try discriminate H; reflexivity.
Qed.

Lemma scan_lstrip (s : string) : scan Idle (lstrip s) = scan Idle s.
Proof.
  induction s as [| c s IH]; [reflexivity |].
  cbn [lstrip]. destruct (is_space c) eqn:E; [| reflexivity].
  rewrite IH. cbn [scan].
  rewrite (scan_step_separator Idle c (is_space_separator c E)). reflexivity.
Qed.

Lemma scan_spaces (s : string) :
  rstrip s = EmptyString -> forall st, scan st s = scan_end st.
Proof.
  induction s as [| c s IH]; intros H st; [reflexivity |].
  cbn [rstrip] in H. destruct (rstrip s) eqn:R; [| discriminate H].
  destruct (is_space c) eqn:E; [| discriminate H].
  cbn [scan]. rewrite (scan_step_separator st c (is_space_separator c E)).
  rewrite (IH eq_refl Idle). cbn [scan_end]. rewrite app_nil_r. reflexivity.
Qed.

Lemma scan_rstrip (s : string) : forall st, scan st (rstrip s) = scan st s.
Proof.
  induction s as [| c s IH]; intros st; [reflexivity |].
  cbn [rstrip]. destruct (rstrip s) as [| a r] eqn:R.
  - destruct (is_space c) eqn:E.
    + symmetry. apply scan_spaces. cbn [rstrip]. rewrite R, E. reflexivity.
    + cbn [scan]. destruct (scan_step st c) as (st', out).
      rewrite (scan_spaces s R st'). reflexivity.
  - cbn [scan]. destruct (scan_step st c) as (st', out).
    rewrite <- (IH st'). reflexivity.
Qed.

Lemma findall_strip (s : string) : findall (strip s) = findall s.
Proof. unfold findall, strip. rewrite scan_rstrip. apply scan_lstrip. Qed.

(** The coordinates of a command are the numbers found in the text after
    its letter; stripping that text and testing it for emptiness change
    nothing. *)
Lemma command_coords (group2 : string) :
  (if negb (String.eqb (strip group2) EmptyString)
   then map_result py_float (findall (strip group2))
   else Ok [])
  = map_result py_float (findall group2).
Proof.
  rewrite <- (findall_strip group2).
  destruct (String.eqb_spec (strip group2) EmptyString) as [-> | _];
    reflexivity.
Qed.

Lemma finditer_run (run : string) :
  Forall (fun c => is_command c = false) (chars run) ->
  finditer run = (run, []).
Proof.
  induction run as [| c run IH]; intros H; [reflexivity |].
  cbn [chars list_ascii_of_string] in H. inversion H as [| ? ? Hc Hr]; subst.
  cbn [finditer]. rewrite (IH Hr), Hc. reflexivity.
Qed.

Lemma parse_one_command (c : ascii) (run : string) :
  is_command c = true ->
  Forall (fun a => is_command a = false) (chars run) ->
  parse_path_commands (String c run)
  = (coords <- map_result py_float (findall run) ;; Ok [(c, coords)]).
Proof.
  intros Hc Hr. unfold parse_path_commands.
  cbn [finditer]. rewrite (finditer_run run Hr), Hc.
  cbn [snd map_result]. rewrite command_coords.
  destruct (map_result py_float (findall run)); reflexivity.
Qed.

Lemma chars_app (a b : string) :
  chars (String.append a b) = chars a ++ chars b.
Proof.
  induction a as [| x a IH]; [reflexivity |].
  cbn [String.append chars list_ascii_of_string app]. f_equal. exact IH.
Qed.

End Separators.

(** X4: Any character that is not a digit, a minus sign or a point separates
    numbers (a comma, a blank, a letter such as e): the coordinates of a
    command whose text is [a], the separator, [b] are the coordinates read
    from [a] followed by those read from [b]. *)
Theorem separator_splits_numbers (c sep : ascii) (a b : string) :
  is_command c = true ->
  is_separator sep = true ->
  Forall (fun x => is_command x = false) (chars a ++ sep :: chars b) ->
  exists xs ys,
    parse_path_commands (String c a) = Ok [(c, xs)]
    /\ parse_path_commands (String c b) = Ok [(c, ys)]
    /\ parse_path_commands (String c (String.append a (String sep b)))
       = Ok [(c, xs ++ ys)].
Proof.
  intros Hc Hs Hall.
  assert (Ha : Forall (fun x => is_command x = false) (chars a)).
  { apply Forall_app in Hall. apply Hall. }
  assert (Hb : Forall (fun x => is_command x = false) (chars b)).
  { apply Forall_app in Hall. destruct Hall as (_ & H).
    inversion H; assumption. }
  assert (Hab : Forall (fun x => is_command x = false)
                  (chars (String.append a (String sep b)))).
  { rewrite chars_app. exact Hall. }
  rewrite (parse_one_command c a Hc Ha), (parse_one_command c b Hc Hb),
    (parse_one_command c _ Hc Hab).
  unfold findall. rewrite (scan_separator a b sep Hs Idle).
  destruct (map_result_ok py_float (scan Idle a)) as (xs & Ex);
    [apply scan_literals; exact I |].
  destruct (map_result_ok py_float (scan Idle b)) as (ys & Ey);
    [apply scan_literals; exact I |].
  exists xs, ys. rewrite Ex, Ey, (map_result_app _ _ _ _ _ Ex Ey).
  cbn [bind]. auto.
Qed.

Lemma separator_splits_numbers_witness :
  exists xs ys,
    parse_path_commands "L1.5,-2" = Ok [("L"%char, xs)]
    /\ parse_path_commands "L-3 .5" = Ok [("L"%char, ys)]
    /\ parse_path_commands (String "L" (String.append "1.5,-2" (String "e" "-3 .5")))
       = Ok [("L"%char, xs ++ ys)].
Proof.
  apply (separator_splits_numbers "L" "e" "1.5,-2" "-3 .5").
  - reflexivity.
  - reflexivity.
  - repeat constructor.
Defined.

(** ** Properties of every command list and path string *)




(** X8: A path string without the letters Z and z yields only open paths. *)
Theorem no_closepath_all_open (path_data : string) (shift : float) :
  ~ In "Z"%char (chars path_data) ->
  ~ In "z"%char (chars path_data) ->
  exists ps,
    extract_path_segments path_data shift = Ok ps
    /\ Forall (fun p => isClosed p = false) ps.
Proof.
  intros HZ Hz.
  destruct (extract_from_state shift all_open path_data) as (st & Ho & E).
  { intros commands Ep. apply (run_invariant shift all_open).
    - intros cmd coords s s' Hin. apply all_open_step.
      intros [-> | ->]; [apply HZ | apply Hz];
        apply (letter_in_string path_data commands _ coords Ep Hin).
    - split; [exact I | constructor]. }
  eexists; split; [exact E |].
  apply (to_output_Forall (fun seg => is_closed seg = false)); [auto |].
  destruct Ho as (Hc & Hs). apply Forall_flush; [exact Hs |].
  destruct (current_segment st); [exact Hc | exact I].
Qed.

Lemma no_closepath_all_open_witness :
  exists ps,
    extract_path_segments "M0,0L100,0 50,7" 0 = Ok ps
    /\ Forall (fun p => isClosed p = false) ps.
Proof.
  apply (no_closepath_all_open "M0,0L100,0 50,7" 0);
    cbn; intuition discriminate.
Defined.




(** ** More on single commands *)

Lemma draw_letter_extends (shift : float) (st : Builder) (cmd : ascii)
  (coords : list float) :
  In cmd DRAW_LETTERS ->
  exists pos' seg' new,
    step shift st (cmd, coords) = Ok (mkBuilder (segments st) (Some seg') pos')
    /\ extends shift (current_pos st)
         (open_segment (current_segment st) (current_pos st) shift)
         new pos' seg'
    /\ List.length new = groups cmd coords.
Proof.
  unfold DRAW_LETTERS. cbn [In].
  intros [<- | [<- | [<- | [<- | []]]]].
  - apply (draw_extends shift (body_curve_abs shift) 6 coords st
             (body_curve_abs_links shift)). lia.
  - apply (draw_extends shift (body_curve_rel shift) 6 coords st
             (body_curve_rel_links shift)). lia.
  - apply (draw_extends shift (body_line_abs shift) 2 coords st
             (body_line_abs_links shift)). lia.
  - apply (draw_extends shift (body_line_rel shift) 2 coords st
             (body_line_rel_links shift)). lia.
Qed.

(** X11: A path may begin with a drawing command: when there is no current
    segment, C, c, L or l opens one that starts at the transformed cursor,
    is open, and holds one cubic per complete group, the cubics leading
    from the start point to the new current point.  The segment is opened
    even when the command has no complete group. *)
Theorem draw_opens_segment (shift : float) (st : Builder) (cmd : ascii)
  (coords : list float) :
  current_segment st = None ->
  In cmd DRAW_LETTERS ->
  exists seg pos,
    step shift st (cmd, coords) = Ok (mkBuilder (segments st) (Some seg) pos)
    /\ start_point seg = Some (coord_of shift (current_pos st))
    /\ current_point seg = Some (coord_of shift pos)
    /\ is_closed seg = false
    /\ List.length (cubic_segments seg) = groups cmd coords
    /\ chained (coord_of shift (current_pos st)) (cubic_segments seg)
         (coord_of shift pos).
Proof.
  intros Hn Hd.
  destruct (draw_letter_extends shift st cmd coords Hd)
    as (pos' & seg' & new & E & X & L).
  rewrite Hn in X. cbn [open_segment] in X.
  destruct (extends_facts _ _ _ _ _ _ X) as (I1 & I2 & I3 & I4 & I5 & _).
  exists seg', pos'. split; [exact E |].
  split; [rewrite I3; reflexivity |].
  split; [apply I4; reflexivity |].
  split; [rewrite I2; reflexivity |].
  split; [rewrite I1; cbn; exact L |].
  rewrite I1. exact I5.
Qed.

Lemma draw_opens_segment_witness :
  exists seg pos,
    step 0 init_builder ("l"%char, [5]) = Ok (mkBuilder [] (Some seg) pos)
    /\ start_point seg = Some (coord_of 0 (0, 0))
    /\ current_point seg = Some (coord_of 0 pos)
    /\ is_closed seg = false
    /\ List.length (cubic_segments seg) = groups "l" [5]
    /\ chained (coord_of 0 (0, 0)) (cubic_segments seg) (coord_of 0 pos).
Proof.
  apply (draw_opens_segment 0 init_builder "l"%char [5]).
  - reflexivity.
  - cbn. tauto.
Defined.



(** X13: A relative command with one group of coordinates does what the absolute
    command does at the cursor plus the offsets: l against L, m against M,
    c against C. *)
Theorem relative_is_offset_absolute (shift : float) (st : Builder)
  (dx dy x1 y1 x2 y2 x3 y3 : float) :
  let x := fst (current_pos st) in
  let y := snd (current_pos st) in
  step shift st ("l"%char, [dx; dy])
  = step shift st ("L"%char, [x + dx; y + dy])
  /\ step shift st ("m"%char, [dx; dy])
     = step shift st ("M"%char, [x + dx; y + dy])
  /\ step shift st ("c"%char, [x1; y1; x2; y2; x3; y3])
     = step shift st
         ("C"%char, [x + x1; y + y1; x + x2; y + y2; x + x3; y + y3]).
Proof.
  cbv zeta. split; [reflexivity | split; reflexivity].
Qed.



(** ** Closing an open segment *)



(** ** Commands that draw nothing *)

Lemma sub_self (x : float) : (x - x = 0)%float \/ (x - x)%float = nan.
Proof.
  assert (K : Prim2SF (x - x) = S754_zero false \/ Prim2SF (x - x) = S754_nan).
  { rewrite FloatAxioms.sub_spec.
    destruct (Prim2SF x) as [s | s | | s m e].
    - left. destruct s; reflexivity.
    - right. destruct s; reflexivity.
    - right. reflexivity.
    - left. unfold SF64sub, SFsub. rewrite Z.min_id. unfold shl_align.
      rewrite Z.sub_diag. cbn [fst]. rewrite ?Z.sub_diag. reflexivity. }
  destruct K as [K | K]; [left | right];
    rewrite <- (SF2Prim_Prim2SF (x - x)), K; reflexivity.
Qed.

(** A point is not more than 0.01 away from itself, whatever its
    coordinates, infinite or undefined ones included. *)
Lemma same_point_is_close (p : Coord) :
  sqrt_gt (dist_sq p p) CLOSE_DIST = false.
Proof.
  unfold dist_sq.
  destruct (sub_self (fst p)) as [-> | ->], (sub_self (snd p)) as [-> | ->];
    vm_compute; reflexivity.
Qed.

Lemma extends_nil_inv (shift : float) pos seg pos' seg' :
  extends shift pos seg [] pos' seg' -> pos' = pos /\ seg' = seg.
Proof. intros H. inversion H. auto. Qed.

Lemma nothing_drawn_step (shift : float) cmd coords st st' :
  groups cmd coords = 0%nat ->
  step_rel shift cmd coords st st' ->
  segments st = []
  /\ match current_segment st with
     | Some seg =>
         cubic_segments seg = [] /\ start_point seg = current_point seg
     | None => True
     end ->
  segments st' = []
  /\ match current_segment st' with
     | Some seg =>
         cubic_segments seg = [] /\ start_point seg = current_point seg
     | None => True
     end.
Proof.
  intros G R (Hs & Hc).
  destruct R as [_ | q pos' seg' new _ X L | pos' seg' new _ X L
                 | seg start end_ _ Es Ea Eb].
  - auto.
  - rewrite G in L. destruct new; [| discriminate L].
    apply extends_nil_inv in X. destruct X as (-> & ->).
    cbn [segments current_segment]. split; [| split; reflexivity].
    rewrite Hs. unfold flush.
    destruct (current_segment st) as [seg |]; [| reflexivity].
    destruct Hc as (Hc & _). rewrite Hc. reflexivity.
  - rewrite G in L. destruct new; [| discriminate L].
    apply extends_nil_inv in X. destruct X as (-> & ->).
    cbn [segments current_segment]. split; [exact Hs |].
    destruct (current_segment st) as [seg |]; [exact Hc |].
    split; reflexivity.
  - rewrite Es in Hc. destruct Hc as (Hc & He).
    rewrite Ea, Eb in He. injection He as ->.
    cbn [segments current_segment]. split; [exact Hs |].
    rewrite same_point_is_close. cbn. rewrite Hc, Ea, Eb. auto.
Qed.

(** X16: When no command has a complete group of coordinates to draw, nothing
    is emitted, whatever movetos and closepaths there are: a closepath adds
    no cubic to a segment that has none. *)
Theorem nothing_drawn_nothing_emitted (commands : list Command)
  (shift : float) :
  Forall (fun c : Command => groups (fst c) (snd c) = 0%nat) commands ->
  build_segments commands shift = Ok [].
Proof.
  intros H. unfold build_segments.
  destruct (run_invariant shift
              (fun st =>
                 segments st = []
                 /\ match current_segment st with
                    | Some seg =>
                        cubic_segments seg = []
                        /\ start_point seg = current_point seg
                    | None => True
                    end)
              commands) with (st := init_builder) as (st & E & Hs & Hc).
  - intros cmd coords s s' Hin. apply nothing_drawn_step.
    rewrite Forall_forall in H. apply (H (cmd, coords) Hin).
  - split; [reflexivity | exact I].
  - rewrite E. cbn [bind]. rewrite Hs. unfold flush.
    destruct (current_segment st) as [seg |]; [| reflexivity].
    destruct Hc as (Hc & _). rewrite Hc. reflexivity.
Qed.

Lemma nothing_drawn_nothing_emitted_witness :
  build_segments
    [("M"%char, [1; 2]); ("L"%char, [3]); ("Z"%char, []);
     ("m"%char, [1; 1; 5; 5]); ("c"%char, [1; 2; 3; 4; 5]); ("z"%char, [])]
    0
  = Ok [].
Proof.
  apply nothing_drawn_nothing_emitted.
  repeat constructor.
Defined.

(** ** A zero shift *)

Lemma add_zero (x : float) : (x + 0 = x)%float \/ x = neg_zero.
Proof.
  destruct (Prim2SF x) as [s | s | | s m e] eqn:E.
  - destruct s.
    + right. rewrite <- (SF2Prim_Prim2SF x), E. reflexivity.
    + left. apply Prim2SF_inj. rewrite FloatAxioms.add_spec, E. reflexivity.
  - left. apply Prim2SF_inj.
    rewrite FloatAxioms.add_spec, E. destruct s; reflexivity.
  - left. apply Prim2SF_inj. rewrite FloatAxioms.add_spec, E. reflexivity.
  - left. apply Prim2SF_inj. rewrite FloatAxioms.add_spec, E. reflexivity.
Qed.

(** X17: With shift 0 the point transform is the geographic transform, for every
    double: adding 0.0 changes only a negative zero, and the longitude of
    -0.0 is that of 0.0. *)
Theorem zero_shift_is_neutral (x y : float) :
  point_to_coord x y 0 = svg_to_geographic x y.
Proof.
  unfold point_to_coord, svg_to_geographic.
  destruct (add_zero x) as [-> | ->]; reflexivity.
Qed.


(** * Properties of the callers *)

(** ** A list of path strings *)




(** ** The path strings of a document *)

Section Documents.

Lemma collect_d_flat_map (elems : list Element) :
  forall paths, collect_d elems paths = paths ++ flat_map d_of elems.
Proof.
  unfold collect_d.
  induction elems as [| e elems IH]; intros paths; cbn [fold_left flat_map].
  - rewrite app_nil_r. reflexivity.
  - rewrite IH. unfold append_d, d_of.
    destruct (get (attrib e) "d"%string) as [d |]; [| reflexivity].
    destruct (String.eqb d EmptyString); [reflexivity |].
    rewrite <- app_assoc. reflexivity.
Qed.

Lemma iter_root (root : Element) :
  iter root = root :: flat_map iter (children root).
Proof. destruct root. reflexivity. Qed.

Lemma d_of_nonempty (e : Element) :
  Forall (fun d => d <> EmptyString) (d_of e).
Proof.
  unfold d_of. destruct (get (attrib e) "d"%string) as [d |]; [| constructor].
  destruct (String.eqb_spec d EmptyString); [constructor |].
  constructor; [assumption | constructor].
Qed.

Lemma flat_map_d_of_nonempty (elems : list Element) :
  Forall (fun d => d <> EmptyString) (flat_map d_of elems).
Proof.
  induction elems as [| e elems IH]; cbn [flat_map]; [constructor |].
  apply Forall_app. split; [apply d_of_nonempty | exact IH].
Qed.

Lemma subseq_refl {A : Type} (l : list A) : subseq l l.
Proof. induction l; constructor; assumption. Qed.

Lemma subseq_app_same {A : Type} (pre small big : list A) :
  subseq small big -> subseq (pre ++ small) (pre ++ big).
Proof. intros H. induction pre; cbn; [assumption | constructor; assumption]. Qed.

Lemma subseq_app_skip {A : Type} (pre small big : list A) :
  subseq small big -> subseq small (pre ++ big).
Proof. intros H. induction pre; cbn; [assumption | constructor; assumption]. Qed.

Lemma subseq_nil_inv {A : Type} (l : list A) : subseq l [] -> l = [].
Proof. intros H. inversion H. reflexivity. Qed.

Lemma subseq_filter_flat_map {A B : Type} (p q : A -> bool) (f : A -> list B)
  (l : list A) :
  (forall x, p x = true -> q x = true) ->
  subseq (flat_map f (filter p l)) (flat_map f (filter q l)).
Proof.
  intros H. induction l as [| x l IH]; cbn [filter flat_map]; [constructor |].
  destruct (p x) eqn:Hp.
  - rewrite (H x Hp). cbn [flat_map]. apply subseq_app_same. exact IH.
  - destruct (q x); cbn [flat_map]; [apply subseq_app_skip |]; exact IH.
Qed.

Lemma svg_path_is_path_tag (e : Element) :
  String.eqb (tag e) SVG_PATH = true -> is_path_tag e = true.
Proof.
  intros H. apply String.eqb_eq in H. unfold is_path_tag. rewrite H.
  reflexivity.
Qed.

Lemma namespaced_subseq (root : Element) :
  subseq (flat_map d_of (findall_svg_path root))
    (flat_map d_of (filter is_path_tag (iter root))).
Proof.
  rewrite iter_root. unfold findall_svg_path. cbn [filter].
  destruct (is_path_tag root); cbn [flat_map];
    [apply subseq_app_skip |];
    apply subseq_filter_flat_map; intros e; apply svg_path_is_path_tag.
Qed.

(** What [parse_svg_file] returns for a document. *)
Lemma parse_svg_file_document (fs : string -> File) (filepath : string)
  (root : Element) :
  fs filepath = Document root ->
  parse_svg_file fs filepath
  = ([], match flat_map d_of (findall_svg_path root) with
         | [] => flat_map d_of (filter is_path_tag (iter root))
         | ns => ns
         end).
Proof.
  intros E. unfold parse_svg_file. rewrite E.
  rewrite collect_d_flat_map. cbn [app].
  destruct (flat_map d_of (findall_svg_path root)); [| reflexivity].
  rewrite collect_d_flat_map. reflexivity.
Qed.

End Documents.

(** X19: The strings [parse_svg_file] returns are non-empty [d] attributes of
    elements whose tag ends with "path", in document order, each element
    giving at most one; for a missing or malformed file the result is empty
    and one line is printed. *)
Theorem svg_paths_in_document_order (fs : string -> File) (filepath : string) :
  Forall (fun d => d <> EmptyString) (snd (parse_svg_file fs filepath))
  /\ match fs filepath with
     | Document root =>
         subseq (snd (parse_svg_file fs filepath))
           (flat_map d_of (filter is_path_tag (iter root)))
         /\ fst (parse_svg_file fs filepath) = []
     | NotFound | Malformed _ =>
         snd (parse_svg_file fs filepath) = []
         /\ List.length (fst (parse_svg_file fs filepath)) = 1%nat
     end.
Proof.
  destruct (fs filepath) as [| e | root] eqn:E.
  - unfold parse_svg_file. rewrite E. cbn. auto.
  - unfold parse_svg_file. rewrite E. cbn. auto.
  - rewrite (parse_svg_file_document fs filepath root E). cbn [fst snd].
    destruct (flat_map d_of (findall_svg_path root)) as [| n ns] eqn:N.
    + split; [apply flat_map_d_of_nonempty |].
      split; [apply subseq_refl | reflexivity].
    + split; [rewrite <- N; apply flat_map_d_of_nonempty |].
      split; [rewrite <- N; apply namespaced_subseq | reflexivity].
Qed.

(** X20: For a document, the result is empty exactly when no element whose tag
    ends with "path", the root included, has a non-empty [d]: the second
    search makes up for what the namespaced search does not find. *)
Theorem svg_paths_empty_iff (fs : string -> File) (filepath : string)
  (root : Element) :
  fs filepath = Document root ->
  (snd (parse_svg_file fs filepath) = []
   <-> flat_map d_of (filter is_path_tag (iter root)) = []).
Proof.
  intros E. rewrite (parse_svg_file_document fs filepath root E). cbn [snd].
  pose proof (namespaced_subseq root) as S.
  destruct (flat_map d_of (findall_svg_path root)) as [| n ns]; [tauto |].
  split; [discriminate |].
  intros K. rewrite K in S. apply subseq_nil_inv in S. discriminate S.
Qed.

Lemma svg_paths_empty_iff_witness :
  let root :=
    mkElement "html" []
      [mkElement "path" [("d", "")%string] [];
       mkElement "g" []
         [mkElement "mypath" [("id", "a")%string; ("d", "M0,0")%string] []]] in
  snd (parse_svg_file (fun _ => Document root) "a.svg") = []
  <-> flat_map d_of (filter is_path_tag (iter root)) = [].
Proof.
  intros root.
  apply (svg_paths_empty_iff (fun _ => Document root) "a.svg" root).
  reflexivity.
Defined.

(** ** The document *)

Section Document.

Variable fs : string -> File.





End Document.



(** ** The sources main chooses *)

Section Sources.

Lemma named_nonempty (needle f : string) :
  needle <> EmptyString ->
  contains needle (lower f) = true -> f <> EmptyString.
Proof.
  intros Hn H ->. destruct needle; [contradiction | discriminate H].
Qed.

Lemma truthy_some (f : string) :
  truthy (Some f) = negb (String.eqb f EmptyString).
Proof. reflexivity. Qed.

Lemma truthy_nonempty (f : string) : f <> EmptyString -> truthy (Some f) = true.
Proof.
  intros H. cbn. destruct (String.eqb_spec f EmptyString); [contradiction |].
  reflexivity.
Qed.

Lemma assign_file_truthy (i o : option string) (f : string) :
  truthy (fst (assign_file (i, o) f)) || truthy (snd (assign_file (i, o) f))
  = truthy i || truthy o || negb (String.eqb f EmptyString).
Proof.
  unfold assign_file.
  destruct (contains "inner"%string (lower f)) eqn:Hi.
  { cbn [fst snd].
    rewrite (truthy_nonempty f (named_nonempty "inner"%string f ltac:(discriminate) Hi)).
    pose proof (named_nonempty "inner"%string f ltac:(discriminate) Hi) as N.
    destruct (String.eqb_spec f EmptyString); [contradiction |].
    destruct (truthy i), (truthy o); reflexivity. }
  destruct (contains "outer"%string (lower f)) eqn:Ho.
  { cbn [fst snd].
    pose proof (named_nonempty "outer"%string f ltac:(discriminate) Ho) as N.
    rewrite (truthy_nonempty f N).
    destruct (String.eqb_spec f EmptyString); [contradiction |].
    destruct (truthy i), (truthy o); reflexivity. }
  destruct (truthy i) eqn:Ti; cbn [negb].
  - destruct (truthy o) eqn:To; cbn [negb fst snd].
    + rewrite Ti, To. reflexivity.
    + rewrite Ti. reflexivity.
  - cbn [fst snd]. rewrite truthy_some.
    destruct (truthy o), (negb (String.eqb f EmptyString)); reflexivity.
Qed.

Lemma fold_assign_truthy (files : list string) :
  forall i o,
    let r := fold_left assign_file files (i, o) in
    truthy (fst r) || truthy (snd r)
    = truthy i || truthy o
      || existsb (fun f => negb (String.eqb f EmptyString)) files.
Proof.
  induction files as [| f files IH]; intros i o; cbn [fold_left existsb].
  - cbv zeta. cbn [fst snd]. rewrite orb_false_r. reflexivity.
  - cbv zeta. destruct (assign_file (i, o) f) as (i', o') eqn:E.
    specialize (IH i' o'). cbv zeta in IH. rewrite IH.
    pose proof (assign_file_truthy i o f) as K. rewrite E in K.
    cbn [fst snd] in K. rewrite K. rewrite <- !orb_assoc. reflexivity.
Qed.

Lemma fold_keeps_inner (f : string) (post : list string) :
  f <> EmptyString ->
  Forall (fun g => contains "inner" (lower g) = false) post ->
  forall o, fst (fold_left assign_file post (Some f, o)) = Some f.
Proof.
  intros Hf. induction 1 as [| g post Hg _ IH]; intros o; [reflexivity |].
  cbn [fold_left]. unfold assign_file at 2. rewrite Hg.
  rewrite (truthy_nonempty f Hf). cbn [negb].
  destruct (contains "outer"%string (lower g)); [apply IH |].
  destruct (negb (truthy o)); apply IH.
Qed.

Lemma fold_keeps_outer (f : string) (post : list string) :
  f <> EmptyString ->
  Forall (fun g => contains "outer" (lower g) = false
                   \/ contains "inner" (lower g) = true) post ->
  forall i, snd (fold_left assign_file post (i, Some f)) = Some f.
Proof.
  intros Hf. induction 1 as [| g post Hg _ IH]; intros i; [reflexivity |].
  cbn [fold_left]. unfold assign_file at 2.
  destruct (contains "inner"%string (lower g)) eqn:Gi; [apply IH |].
  destruct Hg as [Hg | Hg]; [| discriminate Hg]. rewrite Hg.
  rewrite (truthy_nonempty f Hf). cbn [negb].
  destruct (negb (truthy i)); apply IH.
Qed.

Lemma fold_left_app_cons {A B : Type} (g : A -> B -> A) (pre post : list B)
  (x : B) (a : A) :
  fold_left g (pre ++ x :: post) a = fold_left g post (g (fold_left g pre a) x).
Proof. rewrite fold_left_app. reflexivity. Qed.

Lemma fold_both_taken (a b : string) (rest : list string) :
  a <> EmptyString -> b <> EmptyString ->
  Forall unnamed rest ->
  fold_left assign_file rest (Some a, Some b) = (Some a, Some b).
Proof.
  intros Ha Hb. induction 1 as [| g rest (Gi & Go) _ IH]; [reflexivity |].
  cbn [fold_left]. unfold assign_file at 2. rewrite Gi, Go.
  rewrite (truthy_nonempty a Ha), (truthy_nonempty b Hb). cbn [negb].
  exact IH.
Qed.

End Sources.

(** X23: [main] stops with its message that no SVG files are specified exactly
    when neither option names a file and every positional argument is the
    empty string; otherwise a document is made. *)
Theorem main_stops_iff (inner outer : option string) (svg_files : list string) :
  main_sources inner outer svg_files = None
  <-> truthy inner = false /\ truthy outer = false
      /\ Forall (fun f => f = EmptyString) svg_files.
Proof.
  unfold main_sources.
  pose proof (fold_assign_truthy svg_files inner outer) as K. cbv zeta in K.
  destruct (fold_left assign_file svg_files (inner, outer)) as (i, o).
  cbn [fst snd] in K.
  assert (F : existsb (fun f => negb (String.eqb f EmptyString)) svg_files
              = false
              <-> Forall (fun f => f = EmptyString) svg_files).
  { rewrite Forall_forall. split.
    - intros H f Hin. destruct (String.eqb_spec f EmptyString); [assumption |].
      assert (T : existsb (fun f => negb (String.eqb f EmptyString)) svg_files
                  = true).
      { apply existsb_exists. exists f. split; [exact Hin |].
        destruct (String.eqb_spec f EmptyString); [contradiction | reflexivity]. }
      congruence.
    - intros H.
      destruct (existsb (fun f => negb (String.eqb f EmptyString)) svg_files)
        eqn:T; [| reflexivity].
      apply existsb_exists in T. destruct T as (f & Hin & Hf).
      rewrite (H f Hin) in Hf. discriminate Hf. }
  destruct (truthy i), (truthy o); cbn [negb andb] in *.
  - split; [discriminate |]. intros (Ti & To & H). apply F in H.
    rewrite Ti, To, H in K. discriminate K.
  - split; [discriminate |]. intros (Ti & To & H). apply F in H.
    rewrite Ti, To, H in K. discriminate K.
  - split; [discriminate |]. intros (Ti & To & H). apply F in H.
    rewrite Ti, To, H in K. discriminate K.
  - split; [intros _ | reflexivity].
    symmetry in K. apply orb_false_iff in K. destruct K as (K & E).
    apply orb_false_iff in K. destruct K as (Ti & To).
    split; [exact Ti | split; [exact To | apply F; exact E]].
Qed.

Lemma main_stops_iff_witness :
  main_sources (Some EmptyString) None [EmptyString; EmptyString] = None
  <-> truthy (Some EmptyString) = false /\ truthy None = false
      /\ Forall (fun f => f = EmptyString) [EmptyString; EmptyString].
Proof.
  apply (main_stops_iff (Some EmptyString) None [EmptyString; EmptyString]).
Defined.

(** X24: A positional file named for a role takes it, whatever the options say,
    and among several the last one wins: the last file whose lower-cased
    name contains "inner" is the inner source; the last file whose name
    contains "outer" and not "inner" is the outer source. *)
Theorem named_file_takes_role (inner outer : option string)
  (pre post : list string) (f : string) :
  (contains "inner" (lower f) = true ->
   Forall (fun g => contains "inner" (lower g) = false) post ->
   exists o,
     main_sources inner outer (pre ++ f :: post) = Some (Some f, o))
  /\ (contains "inner" (lower f) = false ->
      contains "outer" (lower f) = true ->
      Forall (fun g => contains "outer" (lower g) = false
                       \/ contains "inner" (lower g) = true) post ->
      exists i,
        main_sources inner outer (pre ++ f :: post) = Some (i, Some f)).
Proof.
  split.
  - intros Hf Hpost.
    pose proof (named_nonempty "inner"%string f ltac:(discriminate) Hf) as N.
    unfold main_sources. rewrite fold_left_app_cons.
    destruct (fold_left assign_file pre (inner, outer)) as (i0, o0).
    unfold assign_file at 2. rewrite Hf.
    pose proof (fold_keeps_inner f post N Hpost o0) as K.
    destruct (fold_left assign_file post (Some f, o0)) as (i1, o1).
    cbn [fst] in K. subst i1. rewrite (truthy_nonempty f N). cbn [negb andb].
    exists o1. reflexivity.
  - intros Hi Ho Hpost.
    pose proof (named_nonempty "outer"%string f ltac:(discriminate) Ho) as N.
    unfold main_sources. rewrite fold_left_app_cons.
    destruct (fold_left assign_file pre (inner, outer)) as (i0, o0).
    unfold assign_file at 2. rewrite Hi, Ho.
    pose proof (fold_keeps_outer f post N Hpost i0) as K.
    destruct (fold_left assign_file post (i0, Some f)) as (i1, o1).
    cbn [snd] in K. subst o1. rewrite (truthy_nonempty f N).
    rewrite andb_false_r. exists i1. reflexivity.
Qed.

Lemma named_file_takes_role_witness :
  (exists o,
      main_sources (Some "a.svg"%string) None
        ["x.svg"; "OuterWorld.svg"; "My-INNER.svg"; "b.svg"]%string
      = Some (Some "My-INNER.svg"%string, o))
  /\ (exists i,
         main_sources None None
           ["OuterWorld.svg"; "b.svg"; "inner_outer.svg"]%string
         = Some (i, Some "OuterWorld.svg"%string)).
Proof.
  destruct (named_file_takes_role (Some "a.svg"%string) None
              ["x.svg"; "OuterWorld.svg"]%string ["b.svg"]%string
              "My-INNER.svg"%string) as (A & _).
  destruct (named_file_takes_role None None []
              ["b.svg"; "inner_outer.svg"]%string "OuterWorld.svg"%string)
    as (_ & B).
  split.
  - apply A; [reflexivity | repeat constructor].
  - apply B; [reflexivity | reflexivity |].
    constructor; [left; reflexivity |].
    constructor; [right; reflexivity | constructor].
Defined.

(** X25: With no option given, positional files not named for a role fill the
    inner role first and the outer role second; any further such file is
    ignored. *)
Theorem unnamed_files_fill_inner_first (a b : string) (rest : list string) :
  a <> EmptyString -> b <> EmptyString ->
  unnamed a -> unnamed b -> Forall unnamed rest ->
  main_sources None None (a :: b :: rest) = Some (Some a, Some b).
Proof.
  intros Ha Hb (Ai & Ao) (Bi & Bo) Hrest. unfold main_sources.
  cbn [fold_left]. unfold assign_file at 3. rewrite Ai, Ao. cbn [truthy negb].
  unfold assign_file at 2. rewrite Bi, Bo.
  rewrite (truthy_nonempty a Ha). cbn [truthy negb].
  rewrite (fold_both_taken a b rest Ha Hb Hrest).
  rewrite (truthy_nonempty a Ha). reflexivity.
Qed.

Lemma unnamed_files_fill_inner_first_witness :
  main_sources None None ["east.svg"; "west.svg"; "north.svg"]%string
  = Some (Some "east.svg"%string, Some "west.svg"%string).
Proof.
  apply (unnamed_files_fill_inner_first "east.svg" "west.svg" ["north.svg"%string]).
  - discriminate.
  - discriminate.
  - split; reflexivity.
  - split; reflexivity.
  - repeat constructor.
Defined.

(** ** The callers on examples *)

Example ex_parse_svg_file :
  let root :=
    mkElement "{http://www.w3.org/2000/svg}svg" []
      [mkElement "{http://www.w3.org/2000/svg}g" []
         [mkElement "{http://www.w3.org/2000/svg}path"
            [("id", "p1")%string; ("d", "M0,0L100,0Z")%string] [];
          mkElement "path" [("d", "M1,1")%string] []];
       mkElement "{http://www.w3.org/2000/svg}path" [("d", "")%string] [];
       mkElement "{http://www.w3.org/2000/svg}path"
         [("d", "M5,5 6,6")%string] []] in
  parse_svg_file (fun _ => Document root) "in.svg"
  = ([], ["M0,0L100,0Z"; "M5,5 6,6"]%string).
Proof. vm_compute. reflexivity. Qed.

Example ex_create_globe_document :
  let root :=
    mkElement "svg" []
      [mkElement "path" [("d", "M0,0L100,0Z")%string] [];
       mkElement "path" [("d", "M5,5 6,6 7,7")%string] []] in
  let fs := fun f => if String.eqb f "in.svg" then Document root else NotFound in
  match create_globe_document fs "now" (Some "in.svg"%string)
          (Some "out.svg"%string) "World" with
  | Ok (lines, doc) =>
      lines
      = ["Processing in.svg...";
         "  Found 2 SVG paths";
         String.append "  Converted to 2 segments with 4 " BEZIER_CURVES;
         "Processing out.svg...";
         "  Warning: File not found: out.svg";
         "  Found 0 SVG paths";
         String.append "  Converted to 0 segments with 0 " BEZIER_CURVES;
         String "010" (String.append "Total: 2 paths, 4 " BEZIER_CURVES)]%string
      /\ map (fun l => map (fun p => List.length (cubicSegments p)) (Layer.paths l))
           (layers doc) = [[2; 2]%nat]
  | Raise _ => False
  end.
Proof. vm_compute. split; reflexivity. Qed.

Example ex_main_sources :
  main_sources None (Some "west.svg"%string) ["a.svg"; "Inner2.svg"; "b.svg"]%string
  = Some (Some "Inner2.svg"%string, Some "west.svg"%string).
Proof. vm_compute. reflexivity. Qed.
